(** * Bayesian survival analysis notebook: data preparation and
      posterior post-processing

    The notebook [notebooks/survival_analysis.ipynb] prepares a tabular
    data set for a piecewise-constant proportional-hazards model and turns
    posterior draws of the hazard into cumulative-hazard and survival
    curves.  This file embeds the notebook's own array code:

    - the data preparation cells ([interval_bounds], [n_intervals],
      [last_period], [death], [exposure]) over exact rationals, so that
      every definition evaluates on a concrete data set;
    - the post-processing cells ([cum_hazard], [survival],
      [plot_with_hpd]) over the real numbers, because of [np.exp];
    - the hazard matrices of the two regression models ([lambda_]) and
      the band of the coefficient plot ([beta_hpd]), over the reals;
    - the range of [np.exp] on float64 ([np_exp], [survival_f64]): where
      the result overflows, underflows to 0.0 or is absorbed into 1.0.

    Apart from [np_exp], NumPy's floating-point numbers are idealised as
    exact numbers (rationals or reals): rounding is outside the model, and
    the statements proved on it are those that do not hinge on the last
    bit. *)

From Stdlib Require Import ZArith QArith Qround List Sorted Permutation Bool Lia.
From Stdlib Require Import Reals Psatz.
Import ListNotations.

(** ** Part I: data preparation (exact rational arithmetic) *)

(** One row of the data frame [df].  [event] and [metastized] are the 0/1
    columns obtained by [astype(np.int64)]. *)
Record Observation : Type := mkObservation {
  time : Q;
  event : bool;
  metastized : bool
}.

Definition DataFrame : Type := list Observation.

(** [n_patients = df.shape[0]] *)
Definition n_patients (df : DataFrame) : nat := length df.

(** [interval_length = 3] *)
Definition interval_length : Z := 3.

(** [Series.max()]: the largest entry; an empty column has none (pandas
    yields NaN, on which [np.arange] raises). *)
Fixpoint series_max (ts : list Q) : option Q :=
  match ts with
  | [] => None
  | t :: rest =>
      match series_max rest with
      | None => Some t
      | Some m => Some (if Qle_bool m t then t else m)
      end
  end.

(** [np.arange(start, stop, step)] for a positive integer step: the
    [ceil((stop - start) / step)] values [start + i * step].  The values are
    whole numbers whatever the dtype of [stop]. *)
Definition arange (start : Z) (stop : Q) (step : Z) : list Z :=
  map (fun i => (start + Z.of_nat i * step)%Z)
      (seq 0 (Z.to_nat (Qceiling ((stop - inject_Z start) / inject_Z step)%Q))).

(** [interval_bounds = np.arange(0, df.time.max() + interval_length + 1,
                                 interval_length)] *)
Definition interval_bounds (df : DataFrame) : option (list Z) :=
  match series_max (map time df) with
  | None => None
  | Some m => Some (arange 0 (m + inject_Z interval_length + 1)%Q interval_length)
  end.

(** [n_intervals = interval_bounds.size - 1] *)
Definition n_intervals (df : DataFrame) : option Z :=
  match interval_bounds df with
  | None => None
  | Some bs => Some (Z.of_nat (length bs) - 1)%Z
  end.

(** One entry of
    [last_period = np.floor((df.time - 0.01) / interval_length).astype(int)],
    in exact arithmetic.  In float64 a time within rounding distance of a
    boundary [3k + 0.01] can land in the neighbouring period; whole numbers
    of months are far from every boundary. *)
Definition last_period_of (t : Q) : Z :=
  Qfloor ((t - (1 # 100)) / inject_Z interval_length)%Q.

Definition last_period (df : DataFrame) : list Z :=
  map (fun o => last_period_of (time o)) df.

(** *** NumPy indexing *)

(** An integer index into an axis of size [n]: a negative index counts from
    the end; anything outside [-n, n) raises [IndexError]. *)
Definition norm_index (n : nat) (i : Z) : option nat :=
  if ((0 <=? i) && (i <? Z.of_nat n))%Z then Some (Z.to_nat i)
  else if ((- Z.of_nat n <=? i) && (i <? 0))%Z then Some (Z.to_nat (i + Z.of_nat n))
  else None.

Fixpoint update {A : Type} (k : nat) (v : A) (l : list A) : list A :=
  match l, k with
  | [], _ => []
  | _ :: rest, O => v :: rest
  | x :: rest, S k' => x :: update k' v rest
  end.

(** [a[i]] *)
Definition get_item {A : Type} (l : list A) (i : Z) : option A :=
  match norm_index (length l) i with
  | Some k => nth_error l k
  | None => None
  end.

(** [a[i] = v] *)
Definition set_item {A : Type} (l : list A) (i : Z) (v : A) : option (list A) :=
  match norm_index (length l) i with
  | Some k => Some (update k v l)
  | None => None
  end.

(** A fancy-indexed assignment [a[patients, idx] = vals] touches one entry in
    each row and raises as a whole if any index is out of range. *)
Fixpoint all_some {A : Type} (l : list (option A)) : option (list A) :=
  match l with
  | [] => Some []
  | None :: _ => None
  | Some x :: rest =>
      match all_some rest with
      | Some xs => Some (x :: xs)
      | None => None
      end
  end.

(** *** The death and exposure matrices *)

(** Row of subject [o] in
    [death = np.zeros((n_patients, n_intervals));
     death[patients, last_period] = df.event] *)
Definition death_row (n : Z) (o : Observation) : option (list Z) :=
  set_item (repeat 0%Z (Z.to_nat n)) (last_period_of (time o)) (Z.b2z (event o)).

(** [np.zeros] raises on a negative dimension. *)
Definition death (df : DataFrame) : option (list (list Z)) :=
  match n_intervals df with
  | None => None
  | Some n => if (n <? 0)%Z then None else all_some (map (death_row n) df)
  end.

(** Conversion of a number stored into an integer array: the fractional part
    is dropped (rounding toward zero). *)
Definition Qtrunc (q : Q) : Z := Z.quot (Qnum q) (Zpos (Qden q)).

(** Row of subject [o] in
    [exposure = np.greater_equal.outer(df.time, interval_bounds[:-1])
                * interval_length;
     exposure[patients, last_period] = df.time - interval_bounds[last_period]].
    The product of a boolean array with the integer [interval_length] is an
    integer array, so the assigned difference is stored as an integer. *)
Definition exposure_row (bs : list Z) (o : Observation) : option (list Z) :=
  let row := map (fun b => if Qle_bool (inject_Z b) (time o)
                           then interval_length else 0%Z)
                 (removelast bs) in
  match get_item bs (last_period_of (time o)) with
  | None => None
  | Some b => set_item row (last_period_of (time o)) (Qtrunc (time o - inject_Z b)%Q)
  end.

Definition exposure (df : DataFrame) : option (list (list Z)) :=
  match interval_bounds df with
  | None => None
  | Some bs => all_some (map (exposure_row bs) df)
  end.

(** Sum of a row of an integer matrix. *)
Definition row_sum (row : list Z) : Z := fold_right Z.add 0%Z row.

(** *** Sample data *)

Definition obs (t : Q) (e m : bool) : Observation := mkObservation t e m.

(** A small data frame in the shape of the mastectomy data: whole months,
    deaths and censored observations. *)
Definition df_head : DataFrame :=
  [ obs 23 true false; obs 47 true false; obs 69 true false;
    obs 70 false false; obs 100 false false ].

(** One censored subject. *)
Definition df_censored : DataFrame := [ obs 5 false false ].

(** One subject observed for 0.005 months. *)
Definition df_short : DataFrame := [ obs (1 # 200) true false ].

(** One subject observed for 3.005 months. *)
Definition df_near_bound : DataFrame := [ obs (601 # 200) true false ].

(** *** Auxiliary definitions for the proofs *)

(** The number of bounds produced for a maximum time [m]. *)
Definition n_bounds (m : Q) : Z :=
  Qceiling ((m + inject_Z interval_length + 1 - inject_Z 0)
            / inject_Z interval_length)%Q.

(** The bounds for a maximum time [m]. *)
Definition bounds_of (m : Q) : list Z :=
  map (fun i => (0 + Z.of_nat i * interval_length)%Z)
      (seq 0 (Z.to_nat (n_bounds m))).

(** The at-risk row over [n] intervals of a subject observed for [t],
    before the assignment at the last period. *)
Definition at_risk_row (n : nat) (t : Q) : list Z :=
  map (fun i => if Qle_bool (inject_Z (0 + Z.of_nat i * interval_length)) t
                then interval_length else 0%Z)
      (seq 0 n).

(** ** Part II: post-processing of posterior draws (real arithmetic) *)

(** [a.cumsum()]: running sums, threaded through an accumulator. *)
Fixpoint cumsum_from (acc : R) (l : list R) : list R :=
  match l with
  | [] => []
  | x :: rest => (acc + x)%R :: cumsum_from (acc + x)%R rest
  end.

Definition cumsum (l : list R) : list R := cumsum_from 0%R l.

(** [def cum_hazard(hazard):
        return (interval_length * hazard).cumsum(axis=-1)]
    on one draw of the hazard (a one-dimensional array over intervals). *)
Definition cum_hazard (hazard : list R) : list R :=
  cumsum (map (fun h => (IZR interval_length * h)%R) hazard).

(** [def survival(hazard):
        return np.exp(-cum_hazard(hazard))]
    with the exact exponential; [survival_f64] below keeps the range of
    float64. *)
Definition survival (hazard : list R) : list R :=
  map exp (map Ropp (cum_hazard hazard)).

(** [met_hazard = trace['lambda0'] * np.exp(np.atleast_2d(trace['beta']).T)]:
    draw by draw, the baseline hazard scaled by [exp(beta)]. *)
Definition met_hazard_draw (lambda0 : list R) (beta : R) : list R :=
  map (fun l => (l * exp beta)%R) lambda0.

Definition met_hazard (lambda0 : list (list R)) (beta : list R) : list (list R) :=
  map (fun p => met_hazard_draw (fst p) (snd p)) (combine lambda0 beta).

(** A two-dimensional array is a list of rows (draws), each a list over
    intervals. *)
Definition column (j : nat) (m : list (list R)) : list R :=
  map (fun row => nth j row 0%R) m.

Definition ncols (m : list (list R)) : nat :=
  match m with
  | [] => O
  | row :: _ => length row
  end.

Definition Rsum (l : list R) : R := fold_right Rplus 0%R l.

(** [a.mean(axis=0)]: the mean over draws, interval by interval. *)
Definition mean_axis0 (m : list (list R)) : list R :=
  map (fun j => (Rsum (column j m) / INR (length m))%R) (seq 0 (ncols m)).

(** Sorting, as [np.percentile] does before it interpolates. *)
Fixpoint insert_sorted (x : R) (l : list R) : list R :=
  match l with
  | [] => [x]
  | y :: rest => if Rle_dec x y then x :: l else y :: insert_sorted x rest
  end.

Definition sort (l : list R) : list R := fold_right insert_sorted [] l.

(** The interpolation step of [np.percentile] (default, linear) on the sorted
    sample [s] of size [n]: the position [q / 100 * (n - 1)], the entries
    just below and just above it (the latter capped at the last one), each
    weighted by its closeness to the position. *)
Definition interpolate (s : list R) (q : R) : R :=
  let n := length s in
  let idx := (q / 100 * INR (n - 1))%R in
  let below := Z.to_nat (Int_part idx) in
  let above := Nat.min (S below) (n - 1) in
  let w_above := (idx - IZR (Int_part idx))%R in
  let w_below := (1 - w_above)%R in
  (nth below s 0 * w_below + nth above s 0 * w_above)%R.

(** [np.percentile(a, q)] on a one-dimensional sample.  An empty sample or
    a [q] outside [0, 100] raises. *)
Definition percentile (a : list R) (q : R) : option R :=
  match a with
  | [] => None
  | _ :: _ =>
      if Rle_dec 0 q then
        if Rle_dec q 100 then Some (interpolate (sort a) q)
        else None
      else None
  end.

(** [np.percentile(a, q, axis=0)] for one [q]. *)
Definition percentile_axis0 (m : list (list R)) (q : R) : option (list R) :=
  all_some (map (fun j => percentile (column j m) q) (seq 0 (ncols m))).

(** What [plot_with_hpd] draws: the band between [hpd[0]] and [hpd[1]]
    ([fill_between]) and the line [mean] ([step]). *)
Record Plot : Type := mkPlot {
  hpd_lower : list R;
  hpd_upper : list R;
  mean_line : list R
}.

(** [def plot_with_hpd(x, hazard, f, ax, color=None, label=None, alpha=0.05):
        mean = f(hazard.mean(axis=0))
        percentiles = 100 * np.array([alpha / 2., 1. - alpha / 2.])
        hpd = np.percentile(f(hazard), percentiles, axis=0)
        ax.fill_between(x, hpd[0], hpd[1], color=color, alpha=0.25)
        ax.step(x, mean, color=color, label=label)]
    The two functions the notebook passes for [f], [cum_hazard] and
    [survival], work along the last axis: on the array of draws they act
    draw by draw. *)
Definition plot_with_hpd (hazard : list (list R)) (f : list R -> list R)
    (alpha : R) : option Plot :=
  let mean := f (mean_axis0 hazard) in
  let fh := map f hazard in
  match percentile_axis0 fh (100 * (alpha / 2))%R,
        percentile_axis0 fh (100 * (1 - alpha / 2))%R with
  | Some lo, Some hi => Some (mkPlot lo hi mean)
  | _, _ => None
  end.

(** Five draws of a one-interval hazard, four of them zero. *)
Definition skewed_draws : list (list R) :=
  [ [0%R]; [0%R]; [0%R]; [0%R]; [5%R] ].

(** ** Part III: the regression models and the coefficient plot *)

(** A 0/1 column entry as a number. *)
Definition covariate (b : bool) : R := IZR (Z.b2z b).

(** [lambda_ = T.outer(T.exp(beta * df.metastized), lambda0)]: entry
    [(i, j)] is [exp(beta * metastized[i]) * lambda0[j]]. *)
Definition lambda_ (beta : R) (df : DataFrame) (lambda0 : list R)
    : list (list R) :=
  map (fun o => map (fun l => (exp (beta * covariate (metastized o)) * l)%R)
                    lambda0)
      df.

(** The time-varying model:
    [lambda_ = lambda0 * T.exp(T.outer(T.constant(df.metastized), beta))],
    entry [(i, j)] is [lambda0[j] * exp(metastized[i] * beta[j])]. *)
Definition lambda_tv (beta : list R) (df : DataFrame) (lambda0 : list R)
    : list (list R) :=
  map (fun o => map (fun p => (fst p * exp (covariate (metastized o) * snd p))%R)
                    (combine lambda0 beta))
      df.

(** One draw of
    [tv_met_hazard = time_varying_trace['lambda0']
                     * np.exp(np.atleast_2d(time_varying_trace['beta']))]. *)
Definition tv_met_hazard_draw (lambda0 beta : list R) : list R :=
  map (fun p => (fst p * exp (snd p))%R) (combine lambda0 beta).

(** [beta_hpd = np.percentile(time_varying_trace['beta'], [2.5, 97.5], axis=0)]
    with [beta_low = beta_hpd[0]] and [beta_high = beta_hpd[1]]. *)
Definition beta_hpd (beta_trace : list (list R)) : option (list R * list R) :=
  match percentile_axis0 beta_trace (25 / 10)%R,
        percentile_axis0 beta_trace (975 / 10)%R with
  | Some lo, Some hi => Some (lo, hi)
  | _, _ => None
  end.

(** [beta_hat = time_varying_trace['beta'].mean(axis=0)] *)
Definition beta_hat (beta_trace : list (list R)) : list R :=
  mean_axis0 beta_trace.

(** ** Part IV: the range of [np.exp] on float64 *)

(** A float64 value that is not NaN and not negative infinity: a finite
    number or +inf. *)
Inductive np_float : Type :=
  | Fin (x : R)
  | Inf.

(** [np.exp] on a float64 argument, as far as its range goes.  The code
    rounds the exact value [exp x] to the nearest double; of that rounding
    the model keeps the three effects that change what kind of value comes
    out:
    - overflow, +inf, once [exp x] reaches [2^1024 - 2^970]
      ([x] above 709.78);
    - underflow, [0.0], when [exp x] is at most [2^-1075], half the
      smallest positive double ([x] below -745.13);
    - absorption, [1.0], when [exp x] is within half a unit in the last
      place of 1, from [1 - 2^-54] to [1 + 2^-53].
    Everywhere else the exact value stands for the double next to it. *)
Definition np_exp (x : R) : np_float :=
  if Rle_dec (2 ^ 1024 - 2 ^ 970) (exp x) then Inf
  else if Rle_dec (exp x) (/ 2 ^ 1075) then Fin 0
  else if Rle_dec (1 - / 2 ^ 54) (exp x) then
    if Rle_dec (exp x) (1 + / 2 ^ 53) then Fin 1 else Fin (exp x)
  else Fin (exp x).

(** [survival] with the range of [np.exp] on float64:
    [np.exp(-cum_hazard(hazard))]. *)
Definition survival_f64 (hazard : list R) : list np_float :=
  map np_exp (map Ropp (cum_hazard hazard)).


(** ** Part I: proofs about the data preparation *)

(** Pushes [inject_Z] through integer arithmetic and exposes the constants,
    so that linear arithmetic over [Q] sees through the embedding. *)
Ltac push_inject :=
  unfold Z.sub in *;
  repeat (rewrite inject_Z_plus in * || rewrite inject_Z_mult in *
          || rewrite inject_Z_opp in *);
  repeat match goal with
    | H : context [inject_Z (Zpos ?p)] |- _ =>
        change (inject_Z (Zpos p)) with (Zpos p # 1)%Q in H
    | H : context [inject_Z (Zneg ?p)] |- _ =>
        change (inject_Z (Zneg p)) with (Zneg p # 1)%Q in H
    | H : context [inject_Z 0] |- _ => change (inject_Z 0) with 0%Q in H
    | |- context [inject_Z (Zpos ?p)] =>
        change (inject_Z (Zpos p)) with (Zpos p # 1)%Q
    | |- context [inject_Z (Zneg ?p)] =>
        change (inject_Z (Zneg p)) with (Zneg p # 1)%Q
    | |- context [inject_Z 0] => change (inject_Z 0) with 0%Q
    end.

(** Integer comparisons decided in [Q]. *)
Ltac zify_Q :=
  match goal with
  | |- (_ < _)%Z => rewrite Zlt_Qlt
  | |- (_ <= _)%Z => rewrite Zle_Qle
  end; push_inject.

Section RationalFacts.
Local Open Scope Q_scope.

Lemma Qdiv_interval_length (x : Q) :
  x / inject_Z interval_length == x * (1 # 3).
Proof. reflexivity. Qed.

Lemma Qfloor_thirds (x : Q) :
  3 * inject_Z (Qfloor (x / inject_Z interval_length)) <= x
  /\ x < 3 * inject_Z (Qfloor (x / inject_Z interval_length)) + 3.
Proof.
  pose proof (Qdiv_interval_length x) as E.
  pose proof (Qfloor_le (x / inject_Z interval_length)) as Hlo.
  pose proof (Qlt_floor (x / inject_Z interval_length)) as Hhi.
  set (y := x / inject_Z interval_length) in *.
  push_inject.
  split; lra.
Qed.

Lemma Qceiling_thirds (x : Q) :
  x <= 3 * inject_Z (Qceiling (x / inject_Z interval_length))
  /\ 3 * inject_Z (Qceiling (x / inject_Z interval_length)) < x + 3.
Proof.
  pose proof (Qdiv_interval_length x) as E.
  pose proof (Qle_ceiling (x / inject_Z interval_length)) as Hhi.
  pose proof (Qceiling_lt (x / inject_Z interval_length)) as Hlo.
  set (y := x / inject_Z interval_length) in *.
  push_inject.
  split; lra.
Qed.

(** The period of a time [t] is the [k] with [3k + 0.01 <= t < 3k + 3.01]. *)
Lemma last_period_of_bounds (t : Q) :
  3 * inject_Z (last_period_of t) + (1 # 100) <= t
  /\ t < 3 * inject_Z (last_period_of t) + 3 + (1 # 100).
Proof.
  unfold last_period_of.
  destruct (Qfloor_thirds (t - (1 # 100))) as [Hlo Hhi].
  split; lra.
Qed.

Lemma last_period_of_unique (t : Q) (k : Z) :
  3 * inject_Z k + (1 # 100) <= t ->
  t < 3 * inject_Z k + 3 + (1 # 100) ->
  last_period_of t = k.
Proof.
  intros Hlo Hhi.
  destruct (last_period_of_bounds t) as [Hlo' Hhi'].
  assert (last_period_of t < k + 1)%Z.
  { zify_Q. lra. }
  assert (k < last_period_of t + 1)%Z.
  { zify_Q. lra. }
  lia.
Qed.

Lemma last_period_of_nonneg (t : Q) :
  1 # 100 <= t -> (0 <= last_period_of t)%Z.
Proof.
  intros Ht. destruct (last_period_of_bounds t) as [_ Hhi].
  assert (-1 < last_period_of t)%Z; [|lia].
  zify_Q. lra.
Qed.

Lemma last_period_of_ge_m1 (t : Q) :
  0 < t -> (-1 <= last_period_of t)%Z.
Proof.
  intros Ht. destruct (last_period_of_bounds t) as [_ Hhi].
  assert (-2 < last_period_of t)%Z; [|lia].
  zify_Q. lra.
Qed.

End RationalFacts.

(** *** Lists, indices and fancy-indexed assignment *)

Section Indexing.
Context {A : Type}.

Lemma update_length (k : nat) (v : A) (l : list A) :
  length (update k v l) = length l.
Proof.
  revert k; induction l as [|x l IH]; intros [|k]; simpl; auto.
Qed.

Lemma update_Forall (P : A -> Prop) (k : nat) (v : A) (l : list A) :
  Forall P l -> P v -> Forall P (update k v l).
Proof.
  intros Hl Hv; revert k.
  induction Hl as [|x l Hx Hl IH]; intros [|k]; simpl; auto.
Qed.

Lemma norm_index_lt (n : nat) (i : Z) (k : nat) :
  norm_index n i = Some k -> (k < n)%nat.
Proof.
  unfold norm_index.
  destruct ((0 <=? i)%Z && (i <? Z.of_nat n)%Z) eqn:E1.
  - intros [= <-]. apply andb_prop in E1 as [H1 H2]. lia.
  - destruct ((- Z.of_nat n <=? i)%Z && (i <? 0)%Z) eqn:E2; [|discriminate].
    intros [= <-]. apply andb_prop in E2 as [H1 H2]. lia.
Qed.

Lemma norm_index_nonneg (n : nat) (i : Z) :
  (0 <= i < Z.of_nat n)%Z -> norm_index n i = Some (Z.to_nat i).
Proof.
  intros [H1 H2]. unfold norm_index.
  apply Z.leb_le in H1. apply Z.ltb_lt in H2. now rewrite H1, H2.
Qed.

Lemma norm_index_total (n : nat) (i : Z) :
  (- Z.of_nat n <= i < Z.of_nat n)%Z -> exists k, norm_index n i = Some k.
Proof.
  intros [H1 H2]. unfold norm_index.
  destruct ((0 <=? i)%Z && (i <? Z.of_nat n)%Z) eqn:E1; [eauto|].
  destruct ((- Z.of_nat n <=? i)%Z && (i <? 0)%Z) eqn:E2; [eauto|].
  apply andb_false_iff in E1, E2. lia.
Qed.

Lemma set_item_total (l : list A) (i : Z) (v : A) :
  (- Z.of_nat (length l) <= i < Z.of_nat (length l))%Z ->
  exists k, (k < length l)%nat /\ set_item l i v = Some (update k v l).
Proof.
  intros H. destruct (norm_index_total _ _ H) as [k Hk].
  exists k. split; [eapply norm_index_lt; eauto|].
  unfold set_item. now rewrite Hk.
Qed.

Lemma set_item_inv (l l' : list A) (i : Z) (v : A) :
  set_item l i v = Some l' ->
  exists k, (k < length l)%nat /\ norm_index (length l) i = Some k
            /\ l' = update k v l.
Proof.
  unfold set_item. destruct (norm_index (length l) i) as [k|] eqn:E; [|discriminate].
  intros [= <-]. exists k. split; [eapply norm_index_lt; eauto|auto].
Qed.

Lemma get_item_total (l : list A) (i : Z) :
  (- Z.of_nat (length l) <= i < Z.of_nat (length l))%Z ->
  exists x, get_item l i = Some x.
Proof.
  intros H. destruct (norm_index_total _ _ H) as [k Hk].
  unfold get_item. rewrite Hk.
  destruct (nth_error l k) eqn:E; [eauto|].
  apply nth_error_None in E. apply norm_index_lt in Hk. lia.
Qed.

End Indexing.

Section AllSome.
Context {A B : Type} (f : A -> option B).

Lemma all_some_map_Forall2 (l : list A) (ys : list B) :
  all_some (map f l) = Some ys <-> Forall2 (fun x y => f x = Some y) l ys.
Proof.
  revert ys; induction l as [|x l IH]; intros ys; simpl.
  - split.
    + intros [= <-]. constructor.
    + intros H; inversion H; reflexivity.
  - destruct (f x) as [y|] eqn:Ex.
    + destruct (all_some (map f l)) as [ys'|] eqn:El.
      * split.
        -- intros [= <-]. constructor; [assumption|]. now apply IH.
        -- intros H; inversion H as [|? y' ? ys'' Hy Hys]; subst.
           apply IH in Hys. congruence.
      * split; [discriminate|].
        intros H; inversion H as [|? y' ? ys'' Hy Hys]; subst.
        apply IH in Hys. discriminate.
    + split; [discriminate|].
      intros H; inversion H; congruence.
Qed.

Lemma all_some_map_total (l : list A) :
  Forall (fun x => exists y, f x = Some y) l ->
  exists ys, all_some (map f l) = Some ys.
Proof.
  induction 1 as [|x l [y Hy] _ [ys IH]]; simpl.
  - eauto.
  - rewrite Hy, IH. eauto.
Qed.

End AllSome.

(** *** The interval partition *)

Lemma nth_map_seq {A : Type} (g : nat -> A) (n i : nat) (d : A) :
  (i < n)%nat -> nth i (map g (seq 0 n)) d = g i.
Proof.
  intros Hi.
  rewrite (nth_indep _ d (g 0%nat)) by now rewrite length_map, length_seq.
  rewrite map_nth, seq_nth by assumption. reflexivity.
Qed.

Lemma nth_error_map_seq {A : Type} (g : nat -> A) (n i : nat) :
  (i < n)%nat -> nth_error (map g (seq 0 n)) i = Some (g i).
Proof.
  intros Hi. rewrite nth_error_map, nth_error_seq.
  destruct (Nat.ltb_spec i n); [reflexivity|lia].
Qed.

Lemma arange_length (start : Z) (stop : Q) (step : Z) :
  length (arange start stop step)
  = Z.to_nat (Qceiling ((stop - inject_Z start) / inject_Z step)%Q).
Proof. unfold arange. now rewrite length_map, length_seq. Qed.

Lemma arange_nth (start : Z) (stop : Q) (step : Z) (i : nat) :
  (i < length (arange start stop step))%nat ->
  nth i (arange start stop step) 0%Z = (start + Z.of_nat i * step)%Z.
Proof.
  rewrite arange_length. intros Hi. unfold arange.
  now rewrite nth_map_seq.
Qed.

Lemma series_max_nonempty (ts : list Q) :
  ts <> [] -> exists m, series_max ts = Some m.
Proof.
  destruct ts as [|t ts]; [congruence|]. intros _. simpl.
  destruct (series_max ts); eauto.
Qed.

Lemma series_max_upper (ts : list Q) (m : Q) :
  series_max ts = Some m -> Forall (fun t => (t <= m)%Q) ts.
Proof.
  revert m; induction ts as [|t ts IH]; intros m; simpl; [constructor|].
  destruct (series_max ts) as [m'|] eqn:E.
  - intros [= <-]. specialize (IH m' eq_refl).
    destruct (Qle_bool m' t) eqn:Hc.
    + apply Qle_bool_iff in Hc. constructor; [apply Qle_refl|].
      eapply Forall_impl; [|exact IH]. simpl. intros a Ha.
      eapply Qle_trans; eauto.
    + constructor; [|assumption].
      destruct (Qlt_le_dec t m') as [Hlt|Hle]; [now apply Qlt_le_weak|].
      apply Qle_bool_iff in Hle. congruence.
  - intros [= <-]. constructor; [apply Qle_refl|].
    destruct ts; [constructor|]. simpl in E. destruct (series_max ts); discriminate.
Qed.

Lemma series_max_In (ts : list Q) (m : Q) :
  series_max ts = Some m -> In m ts.
Proof.
  revert m; induction ts as [|t ts IH]; intros m; simpl; [discriminate|].
  destruct (series_max ts) as [m'|] eqn:E.
  - intros [= <-]. destruct (Qle_bool m' t); auto.
  - intros [= <-]. auto.
Qed.

Section Partition.
Local Open Scope Q_scope.

Lemma n_bounds_spec (m : Q) :
  m + 4 <= 3 * inject_Z (n_bounds m) /\ 3 * inject_Z (n_bounds m) < m + 7.
Proof.
  unfold n_bounds.
  destruct (Qceiling_thirds (m + inject_Z interval_length + 1 - inject_Z 0))
    as [Hlo Hhi].
  change (inject_Z interval_length) with 3 in Hlo at 1.
  change (inject_Z interval_length) with 3 in Hhi at 3.
  change (inject_Z 0) with 0 in *.
  split; lra.
Qed.

Lemma n_bounds_ge_2 (m : Q) : 0 < m -> (2 <= n_bounds m)%Z.
Proof.
  intros Hm. destruct (n_bounds_spec m) as [Hlo _].
  assert (1 < n_bounds m)%Z; [|lia].
  zify_Q. lra.
Qed.

Lemma interval_bounds_eq (df : DataFrame) (m : Q) :
  series_max (map time df) = Some m ->
  interval_bounds df = Some (bounds_of m).
Proof. intros H. unfold interval_bounds. now rewrite H. Qed.

Lemma n_intervals_eq (df : DataFrame) (m : Q) :
  series_max (map time df) = Some m -> 0 < m ->
  n_intervals df = Some (n_bounds m - 1)%Z.
Proof.
  intros H Hm. unfold n_intervals. rewrite (interval_bounds_eq df m H).
  unfold bounds_of. rewrite length_map, length_seq.
  pose proof (n_bounds_ge_2 m Hm). f_equal. lia.
Qed.

(** A time in [[0.01, m]] falls in one of the [n_bounds m - 1] intervals. *)
Lemma last_period_of_lt (m t : Q) :
  t <= m -> (last_period_of t < n_bounds m - 1)%Z.
Proof.
  intros Ht.
  destruct (n_bounds_spec m) as [Hlo _].
  destruct (last_period_of_bounds t) as [Hk _].
  zify_Q. lra.
Qed.

End Partition.

(** *** The death matrix *)

Section Death.
Local Open Scope Q_scope.

Lemma times_le_max (df : DataFrame) (m : Q) :
  series_max (map time df) = Some m -> Forall (fun o => time o <= m) df.
Proof.
  intros H. apply series_max_upper in H.
  now rewrite Forall_map in H.
Qed.

Lemma max_positive (df : DataFrame) (m : Q) :
  series_max (map time df) = Some m ->
  Forall (fun o => 0 < time o) df -> 0 < m.
Proof.
  intros H Hpos. apply series_max_In in H.
  apply in_map_iff in H as [o [<- Ho]].
  rewrite Forall_forall in Hpos. auto.
Qed.

Lemma death_row_total (m : Q) (o : Observation) :
  0 < m -> 0 < time o -> time o <= m ->
  exists k, (k < Z.to_nat (n_bounds m - 1))%nat
    /\ death_row (n_bounds m - 1) o
       = Some (update k (Z.b2z (event o)) (repeat 0%Z (Z.to_nat (n_bounds m - 1)))).
Proof.
  intros Hm Ht Hle. unfold death_row.
  pose proof (n_bounds_ge_2 m Hm).
  pose proof (last_period_of_ge_m1 _ Ht).
  pose proof (last_period_of_lt m _ Hle).
  destruct (set_item_total (repeat 0%Z (Z.to_nat (n_bounds m - 1)))
              (last_period_of (time o)) (Z.b2z (event o))) as [k [Hk E]].
  { rewrite repeat_length. lia. }
  rewrite repeat_length in Hk. eauto.
Qed.

Lemma death_total (df : DataFrame) :
  df <> [] -> Forall (fun o => 0 < time o) df ->
  exists D, death df = Some D.
Proof.
  intros Hne Hpos.
  destruct (series_max_nonempty (map time df)) as [m Hm].
  { destruct df; [congruence|discriminate]. }
  pose proof (max_positive df m Hm Hpos) as Hm0.
  unfold death. rewrite (n_intervals_eq df m Hm Hm0).
  pose proof (n_bounds_ge_2 m Hm0).
  destruct (Z.ltb_spec (n_bounds m - 1) 0); [lia|].
  apply all_some_map_total.
  pose proof (times_le_max df m Hm) as Hle.
  rewrite Forall_forall in *. intros o Ho.
  destruct (death_row_total m o Hm0 (Hpos o Ho) (Hle o Ho)) as [k [_ E]].
  eauto.
Qed.

(** Every row of a death matrix is a row of zeros with the event indicator
    stored at one position. *)
Lemma death_rows (df : DataFrame) (D : list (list Z)) :
  death df = Some D ->
  exists n, n_intervals df = Some n /\ (0 <= n)%Z /\
    Forall2 (fun o row => exists k, (k < Z.to_nat n)%nat
               /\ row = update k (Z.b2z (event o)) (repeat 0%Z (Z.to_nat n)))
            df D.
Proof.
  unfold death. destruct (n_intervals df) as [n|]; [|discriminate].
  destruct (Z.ltb_spec n 0); [discriminate|].
  intros HD. exists n. split; [reflexivity|]. split; [assumption|].
  apply all_some_map_Forall2 in HD.
  eapply Forall2_impl; [|exact HD]. simpl.
  intros o row Hrow. unfold death_row in Hrow.
  apply set_item_inv in Hrow as [k [Hk [_ ->]]].
  rewrite repeat_length in Hk. eauto.
Qed.

Lemma count_occ_repeat_zero (n : nat) :
  count_occ Z.eq_dec (repeat 0%Z n) 1%Z = 0%nat.
Proof. induction n; simpl; auto. Qed.

Lemma count_occ_update_zeros (k n : nat) (b : bool) :
  (k < n)%nat ->
  count_occ Z.eq_dec (update k (Z.b2z b) (repeat 0%Z n)) 1%Z
  = (if b then 1 else 0)%nat.
Proof.
  revert k; induction n as [|n IH]; intros k Hk; [lia|].
  destruct k as [|k]; simpl.
  - rewrite count_occ_repeat_zero. destruct b; reflexivity.
  - apply IH. lia.
Qed.

Lemma zero_one_update_zeros (k n : nat) (b : bool) :
  Forall (fun d => d = 0%Z \/ d = 1%Z) (update k (Z.b2z b) (repeat 0%Z n)).
Proof.
  apply update_Forall.
  - apply Forall_forall. intros d Hd. apply repeat_spec in Hd. auto.
  - destruct b; simpl; auto.
Qed.

End Death.

(** *** The exposure matrix *)

Section Exposure.
Local Open Scope Q_scope.

Lemma removelast_map_seq {A : Type} (g : nat -> A) (n : nat) :
  removelast (map g (seq 0 (S n))) = map g (seq 0 n).
Proof.
  rewrite seq_S, map_app. simpl. apply removelast_last.
Qed.

Lemma removelast_bounds_of (m : Q) (t : Q) :
  0 < m ->
  map (fun b => if Qle_bool (inject_Z b) t then interval_length else 0%Z)
      (removelast (bounds_of m))
  = at_risk_row (Z.to_nat (n_bounds m - 1)) t.
Proof.
  intros Hm. pose proof (n_bounds_ge_2 m Hm).
  unfold bounds_of, at_risk_row.
  replace (Z.to_nat (n_bounds m)) with (S (Z.to_nat (n_bounds m - 1))) by lia.
  rewrite removelast_map_seq, map_map. reflexivity.
Qed.

Lemma bounds_of_length (m : Q) :
  length (bounds_of m) = Z.to_nat (n_bounds m).
Proof. unfold bounds_of. now rewrite length_map, length_seq. Qed.

Lemma at_risk_row_length (n : nat) (t : Q) : length (at_risk_row n t) = n.
Proof. unfold at_risk_row. now rewrite length_map, length_seq. Qed.

Lemma at_risk_row_nonneg (n : nat) (t : Q) :
  Forall (fun x => (0 <= x)%Z) (at_risk_row n t).
Proof.
  unfold at_risk_row. apply Forall_map, Forall_forall. intros i _.
  destruct (Qle_bool _ _); unfold interval_length; lia.
Qed.

Lemma exposure_row_total (m : Q) (o : Observation) :
  0 < m -> 0 < time o -> time o <= m ->
  exists row, exposure_row (bounds_of m) o = Some row.
Proof.
  intros Hm Ht Hle. unfold exposure_row.
  rewrite (removelast_bounds_of m (time o) Hm).
  pose proof (n_bounds_ge_2 m Hm).
  pose proof (last_period_of_ge_m1 _ Ht).
  pose proof (last_period_of_lt m _ Hle).
  destruct (get_item_total (bounds_of m) (last_period_of (time o))) as [b ->].
  { rewrite bounds_of_length. lia. }
  destruct (set_item_total (at_risk_row (Z.to_nat (n_bounds m - 1)) (time o))
              (last_period_of (time o))
              (Qtrunc (time o - inject_Z b))) as [k [_ ->]].
  { rewrite at_risk_row_length. lia. }
  eauto.
Qed.

(** For a time of at least 0.01 the last period is a plain (non-negative)
    index: the entry there becomes the time spent in that interval. *)
Lemma exposure_row_regular (m : Q) (o : Observation) :
  0 < m -> 1 # 100 <= time o -> time o <= m ->
  exposure_row (bounds_of m) o
  = Some (update (Z.to_nat (last_period_of (time o)))
            (Qtrunc (time o
                     - inject_Z (interval_length * last_period_of (time o))))
            (at_risk_row (Z.to_nat (n_bounds m - 1)) (time o))).
Proof.
  intros Hm Ht Hle. unfold exposure_row.
  rewrite (removelast_bounds_of m (time o) Hm).
  pose proof (n_bounds_ge_2 m Hm).
  pose proof (last_period_of_nonneg _ Ht) as H0.
  pose proof (last_period_of_lt m _ Hle) as H1.
  set (k := last_period_of (time o)) in *.
  unfold get_item, set_item.
  rewrite bounds_of_length, at_risk_row_length.
  rewrite !norm_index_nonneg by lia.
  unfold bounds_of. rewrite nth_error_map_seq by lia.
  rewrite Z2Nat.id by lia.
  replace (0 + k * interval_length)%Z with (interval_length * k)%Z by lia.
  reflexivity.
Qed.

Lemma exposure_Forall2 (df : DataFrame) (m : Q) (E : list (list Z)) :
  series_max (map time df) = Some m ->
  exposure df = Some E ->
  Forall2 (fun o row => exposure_row (bounds_of m) o = Some row) df E.
Proof.
  intros Hm. unfold exposure. rewrite (interval_bounds_eq df m Hm).
  intros HE. now apply all_some_map_Forall2 in HE.
Qed.

Lemma exposure_total (df : DataFrame) :
  df <> [] -> Forall (fun o => 0 < time o) df ->
  exists E, exposure df = Some E.
Proof.
  intros Hne Hpos.
  destruct (series_max_nonempty (map time df)) as [m Hm].
  { destruct df; [congruence|discriminate]. }
  pose proof (max_positive df m Hm Hpos) as Hm0.
  unfold exposure. rewrite (interval_bounds_eq df m Hm).
  apply all_some_map_total.
  pose proof (times_le_max df m Hm) as Hle.
  rewrite Forall_forall in *. intros o Ho.
  apply (exposure_row_total m o Hm0 (Hpos o Ho) (Hle o Ho)).
Qed.

Lemma Qtrunc_nonneg (q : Q) : 0 <= q -> (0 <= Qtrunc q)%Z.
Proof.
  intros Hq. unfold Qtrunc. apply Z.quot_pos; [|lia].
  unfold Qle in Hq. simpl in Hq. lia.
Qed.

Lemma Qtrunc_inject_Z_sub (a b : Z) :
  Qtrunc (inject_Z a - inject_Z b) = (a - b)%Z.
Proof.
  unfold Qtrunc. simpl. rewrite Z.quot_1_r. lia.
Qed.

(** *** Row sums *)

Lemma row_sum_update (k : nat) (v : Z) (l : list Z) :
  (k < length l)%nat ->
  row_sum (update k v l) = (row_sum l - nth k l 0 + v)%Z.
Proof.
  revert k; induction l as [|x l IH]; intros k Hk; simpl in *; [lia|].
  destruct k as [|k]; simpl.
  - lia.
  - rewrite IH by lia. lia.
Qed.

(** An at-risk row switches from [interval_length] to zero after interval
    [j] when [j] is the last interval starting no later than [t]. *)
Lemma at_risk_row_sum (t : Q) (j : Z) (n : nat) :
  (0 <= j)%Z ->
  3 * inject_Z j <= t -> t < 3 * inject_Z j + 3 ->
  row_sum (at_risk_row n t) = (interval_length * Z.min (Z.of_nat n) (j + 1))%Z.
Proof.
  intros Hj Hlo Hhi. unfold at_risk_row.
  induction n as [|n IH].
  - change (row_sum (map _ (seq 0 0))) with 0%Z. unfold interval_length. lia.
  - rewrite seq_S, map_app.
    assert (Happ : forall l x, row_sum (l ++ [x]) = (row_sum l + x)%Z).
    { induction l as [|y l IHl]; intros x; simpl; [lia|]. rewrite IHl. lia. }
    cbn [map Nat.add]. rewrite Happ, IH. clear IH Happ.
    destruct (Qle_bool (inject_Z (0 + Z.of_nat n * interval_length)) t) eqn:Hc.
    + apply Qle_bool_iff in Hc.
      assert (Z.of_nat n < j + 1)%Z.
      { unfold interval_length in Hc. zify_Q. lra. }
      unfold interval_length. lia.
    + assert (j < Z.of_nat n)%Z.
      { destruct (Z.lt_ge_cases j (Z.of_nat n)) as [|Hge]; [assumption|].
        exfalso. assert (Qle_bool (inject_Z (0 + Z.of_nat n * interval_length)) t = true);
          [|congruence].
        apply Qle_bool_iff. rewrite Zle_Qle in Hge.
        unfold interval_length. push_inject. lra. }
      unfold interval_length. lia.
Qed.

Lemma at_risk_row_nth (t : Q) (n k : nat) :
  (k < n)%nat -> 3 * inject_Z (Z.of_nat k) <= t ->
  nth k (at_risk_row n t) 0%Z = interval_length.
Proof.
  intros Hk Hle. unfold at_risk_row. rewrite nth_map_seq by assumption.
  assert (Qle_bool (inject_Z (0 + Z.of_nat k * interval_length)) t = true) as ->;
    [|reflexivity].
  apply Qle_bool_iff. unfold interval_length. push_inject. lra.
Qed.

End Exposure.

(** *** Properties of the data preparation *)

Section DataPreparation.
Local Open Scope Q_scope.

Lemma Some_eq {A : Type} (a b : A) : Some a = Some b -> b = a.
Proof. congruence. Qed.

Lemma last_map_seq {A : Type} (g : nat -> A) (n : nat) (d : A) :
  last (map g (seq 0 (S n))) d = g n.
Proof. rewrite seq_S, map_app. simpl. apply last_last. Qed.

Lemma Forall2_nth_error_left {A B : Type} (R : A -> B -> Prop)
    (l : list A) (l' : list B) (i : nat) (x : A) :
  Forall2 R l l' -> nth_error l i = Some x ->
  exists y, nth_error l' i = Some y /\ R x y.
Proof.
  intros H; revert i; induction H as [|a b l l' Hab _ IH]; intros [|i]; simpl;
    try discriminate.
  - intros [= <-]. eauto.
  - apply IH.
Qed.

(** C7. For a data set whose largest observed time [m] is positive,
    [interval_bounds] is the arithmetic sequence 0, 3, 6, ... (entry [i] is
    [i * interval_length]); it has at least two entries, is strictly
    increasing, and its last entry is strictly larger than [m]. *)
Theorem interval_bounds_partition (df : DataFrame) (m : Q) :
  series_max (map time df) = Some m -> 0 < m ->
  exists bs,
    interval_bounds df = Some bs
    /\ (2 <= length bs)%nat
    /\ nth 0 bs 0%Z = 0%Z
    /\ (forall i, (i < length bs)%nat ->
          nth i bs 0%Z = (Z.of_nat i * interval_length)%Z)
    /\ (forall i, (S i < length bs)%nat ->
          (nth (S i) bs 0 - nth i bs 0 = interval_length)%Z)
    /\ (forall i j, (i < j < length bs)%nat -> (nth i bs 0 < nth j bs 0)%Z)
    /\ m < inject_Z (last bs 0%Z).
Proof.
  intros Hmax Hm.
  pose proof (n_bounds_ge_2 m Hm) as H2.
  destruct (n_bounds_spec m) as [Hlo _].
  exists (bounds_of m).
  assert (Hlen : length (bounds_of m) = Z.to_nat (n_bounds m))
    by apply bounds_of_length.
  assert (Hnth : forall i, (i < length (bounds_of m))%nat ->
            nth i (bounds_of m) 0%Z = (Z.of_nat i * interval_length)%Z).
  { intros i Hi. unfold bounds_of. rewrite nth_map_seq by lia. lia. }
  split; [now apply interval_bounds_eq|].
  split; [lia|].
  split; [rewrite Hnth by lia; reflexivity|].
  split; [exact Hnth|].
  split; [intros i Hi; rewrite !Hnth by lia; unfold interval_length; lia|].
  split; [intros i j Hij; rewrite !Hnth by lia; unfold interval_length; lia|].
  unfold bounds_of.
  replace (Z.to_nat (n_bounds m)) with (S (Z.to_nat (n_bounds m - 1))) by lia.
  rewrite last_map_seq. rewrite Z2Nat.id by lia.
  unfold interval_length. push_inject. lra.
Qed.

(** C8, for observed times of at least 0.01. For a non-empty data set in
    which every observed time is at least 0.01, every entry of
    [last_period] lies in [0, n_intervals), and the indexed assignments that
    build the death and exposure matrices succeed. *)
Theorem last_period_in_bounds (df : DataFrame) :
  df <> [] -> Forall (fun o => 1 # 100 <= time o) df ->
  exists n,
    n_intervals df = Some n
    /\ Forall (fun k => (0 <= k < n)%Z) (last_period df)
    /\ (exists D, death df = Some D)
    /\ (exists E, exposure df = Some E).
Proof.
  intros Hne Hge.
  assert (Hpos : Forall (fun o => 0 < time o) df).
  { eapply Forall_impl; [|exact Hge]. simpl. intros o Ho. lra. }
  destruct (series_max_nonempty (map time df)) as [m Hm].
  { destruct df; [congruence|discriminate]. }
  pose proof (max_positive df m Hm Hpos) as Hm0.
  exists (n_bounds m - 1)%Z.
  split; [now apply n_intervals_eq|].
  split.
  - unfold last_period. apply Forall_map.
    pose proof (times_le_max df m Hm) as Hle.
    rewrite Forall_forall in *. intros o Ho. split.
    + apply last_period_of_nonneg; auto.
    + apply last_period_of_lt; auto.
  - split; [now apply death_total|now apply exposure_total].
Qed.

(** C2, with censoring taken into account. For a non-empty data set of
    positive times the death
    matrix is built, and the row of each subject has [n_intervals] entries,
    all 0 or 1, of which exactly one is 1 when the subject's death was
    observed and none is 1 when the observation is censored. *)
Theorem death_row_indicator (df : DataFrame) :
  df <> [] -> Forall (fun o => 0 < time o) df ->
  exists D n,
    death df = Some D
    /\ n_intervals df = Some n
    /\ length D = n_patients df
    /\ Forall2 (fun o row =>
                  Z.of_nat (length row) = n
                  /\ Forall (fun d => d = 0%Z \/ d = 1%Z) row
                  /\ count_occ Z.eq_dec row 1%Z = (if event o then 1 else 0)%nat)
               df D.
Proof.
  intros Hne Hpos.
  destruct (death_total df Hne Hpos) as [D HD].
  destruct (death_rows df D HD) as [n [Hn [Hn0 Hrows]]].
  exists D, n. split; [assumption|]. split; [assumption|].
  split; [symmetry; exact (Forall2_length Hrows)|].
  eapply Forall2_impl; [|exact Hrows]. simpl.
  intros o row [k [Hk ->]].
  split; [rewrite update_length, repeat_length; lia|].
  split; [apply zero_one_update_zeros|].
  now apply count_occ_update_zeros.
Qed.

(** C6, for observed times of at least 0.01. For a non-empty data set in
    which every observed time is at least 0.01, the exposure matrix is built and all its entries are
    non-negative. *)
Theorem exposure_nonneg (df : DataFrame) :
  df <> [] -> Forall (fun o => 1 # 100 <= time o) df ->
  exists E,
    exposure df = Some E
    /\ Forall (Forall (fun x => (0 <= x)%Z)) E.
Proof.
  intros Hne Hge.
  assert (Hpos : Forall (fun o => 0 < time o) df).
  { eapply Forall_impl; [|exact Hge]. simpl. intros o Ho. lra. }
  destruct (exposure_total df Hne Hpos) as [E HE].
  exists E. split; [assumption|].
  destruct (series_max_nonempty (map time df)) as [m Hm].
  { destruct df; [congruence|discriminate]. }
  pose proof (max_positive df m Hm Hpos) as Hm0.
  pose proof (times_le_max df m Hm) as Hle.
  pose proof (exposure_Forall2 df m E Hm HE) as Hrows.
  clear HE Hne Hpos Hm.
  induction Hrows as [|o row df E Hrow _ IH]; constructor.
  - inversion Hge; subst. inversion Hle; subst.
    rewrite exposure_row_regular in Hrow by assumption.
    apply Some_eq in Hrow. subst row.
    apply update_Forall; [apply at_risk_row_nonneg|].
    apply Qtrunc_nonneg.
    destruct (last_period_of_bounds (time o)) as [Hk _].
    unfold interval_length. push_inject. lra.
  - inversion Hge; subst. inversion Hle; subst. auto.
Qed.

(** C9, for times in whole months. For a data set of positive times, a
    subject observed
    for a whole number [z] of months, with [z] positive and not a multiple
    of [interval_length], has an exposure row that sums to [z]. *)
Theorem exposure_row_sum_whole_months
    (df : DataFrame) (i : nat) (o : Observation) (z : Z) :
  Forall (fun o' => 0 < time o') df ->
  nth_error df i = Some o ->
  time o = inject_Z z ->
  (0 < z)%Z -> (z mod interval_length <> 0)%Z ->
  exists E row,
    exposure df = Some E
    /\ nth_error E i = Some row
    /\ row_sum row = z.
Proof.
  intros Hpos Hi Ht Hz Hmod.
  assert (Hne : df <> []) by (intros ->; destruct i; discriminate).
  destruct (exposure_total df Hne Hpos) as [E HE].
  destruct (series_max_nonempty (map time df)) as [m Hm].
  { destruct df; [congruence|discriminate]. }
  pose proof (max_positive df m Hm Hpos) as Hm0.
  pose proof (times_le_max df m Hm) as Hle.
  pose proof (exposure_Forall2 df m E Hm HE) as Hrows.
  destruct (Forall2_nth_error_left _ _ _ _ _ Hrows Hi) as [row [Hrow Hexp]].
  exists E, row. split; [assumption|]. split; [assumption|].
  assert (Hom : time o <= m).
  { rewrite Forall_forall in Hle. apply Hle. eapply nth_error_In; eauto. }
  pose proof (Z.div_mod z interval_length) as Hdiv.
  pose proof (Z.mod_pos_bound z interval_length) as Hrem.
  unfold interval_length in Hdiv, Hrem, Hmod.
  set (k := (z / 3)%Z) in *. set (r := (z mod 3)%Z) in *.
  clearbody k r.
  assert (Hk0 : (0 <= k)%Z) by lia.
  assert (Hzk : inject_Z z == 3 * inject_Z k + inject_Z r).
  { replace z with (3 * k + r)%Z at 1 by lia. push_inject. lra. }
  assert (Hr1 : 1 <= inject_Z r).
  { change 1 with (inject_Z 1). rewrite <- Zle_Qle. lia. }
  assert (Hr2 : inject_Z r <= 2).
  { change 2 with (inject_Z 2). rewrite <- Zle_Qle. lia. }
  assert (Hlp : last_period_of (time o) = k).
  { apply last_period_of_unique; rewrite Ht; clear - Hzk Hr1 Hr2; lra. }
  assert (Hz1 : 1 <= inject_Z z).
  { change 1 with (inject_Z 1). rewrite <- Zle_Qle. lia. }
  assert (Ht1 : 1 # 100 <= time o) by (rewrite Ht; clear - Hz1; lra).
  assert (Ht2 : 3 * inject_Z k <= time o) by (rewrite Ht; clear - Hzk Hr1; lra).
  assert (Ht3 : time o < 3 * inject_Z k + 3) by (rewrite Ht; clear - Hzk Hr2; lra).
  rewrite exposure_row_regular in Hexp by assumption.
  apply Some_eq in Hexp. subst row.
  pose proof (last_period_of_lt m _ Hom) as Hkn.
  rewrite Hlp in *.
  rewrite row_sum_update by (rewrite at_risk_row_length; lia).
  rewrite (at_risk_row_sum (time o) k) by assumption.
  rewrite at_risk_row_nth by (try lia; rewrite Z2Nat.id by lia; assumption).
  rewrite Ht, Qtrunc_inject_Z_sub.
  unfold interval_length. lia.
Qed.

End DataPreparation.

(** ** Part II: proofs about the post-processing *)

Section Curves.
Local Open Scope R_scope.

Lemma cumsum_from_length (acc : R) (l : list R) :
  length (cumsum_from acc l) = length l.
Proof. revert acc; induction l; intros acc; simpl; auto. Qed.

(** Entry [i] of a running sum is the accumulator plus the first [i + 1]
    summands. *)
Lemma cumsum_from_nth (acc : R) (l : list R) (i : nat) :
  (i < length l)%nat ->
  nth i (cumsum_from acc l) 0 = acc + Rsum (firstn (S i) l).
Proof.
  revert acc i; induction l as [|x l IH]; intros acc i Hi; simpl in Hi; [lia|].
  destruct i as [|i].
  - simpl. lra.
  - change (nth (S i) (cumsum_from acc (x :: l)) 0)
      with (nth i (cumsum_from (acc + x) l) 0).
    rewrite IH by lia.
    change (firstn (S (S i)) (x :: l)) with (x :: firstn (S i) l).
    simpl Rsum. lra.
Qed.

Lemma cumsum_from_sorted (acc : R) (l : list R) :
  Forall (Rle 0) l ->
  Forall (Rle acc) (cumsum_from acc l)
  /\ StronglySorted Rle (cumsum_from acc l).
Proof.
  intros Hl; revert acc; induction Hl as [|x l Hx _ IH]; intros acc; simpl.
  - split; constructor.
  - destruct (IH (acc + x)) as [Hge Hs].
    split.
    + constructor; [lra|].
      eapply Forall_impl; [|exact Hge]. simpl. intros; lra.
    + constructor; assumption.
Qed.

Lemma cumsum_from_monotone (a1 a2 : R) (l1 l2 : list R) :
  a1 <= a2 -> Forall2 Rle l1 l2 ->
  Forall2 Rle (cumsum_from a1 l1) (cumsum_from a2 l2).
Proof.
  intros Ha Hl; revert a1 a2 Ha.
  induction Hl as [|x y l1 l2 Hxy _ IH]; intros a1 a2 Ha; simpl; constructor.
  - lra.
  - apply IH. lra.
Qed.

Lemma scaled_nonneg (hazard : list R) :
  Forall (Rle 0) hazard ->
  Forall (Rle 0) (map (fun h => IZR interval_length * h) hazard).
Proof.
  intros H. apply Forall_map. eapply Forall_impl; [|exact H]. simpl.
  intros h Hh. unfold interval_length. lra.
Qed.

Lemma cum_hazard_length (hazard : list R) :
  length (cum_hazard hazard) = length hazard.
Proof.
  unfold cum_hazard, cumsum. now rewrite cumsum_from_length, length_map.
Qed.

Lemma survival_length (hazard : list R) :
  length (survival hazard) = length hazard.
Proof. unfold survival. now rewrite !length_map, cum_hazard_length. Qed.


Lemma cum_hazard_monotone (h1 h2 : list R) :
  Forall2 Rle h1 h2 -> Forall2 Rle (cum_hazard h1) (cum_hazard h2).
Proof.
  intros H. unfold cum_hazard, cumsum.
  apply cumsum_from_monotone; [lra|].
  induction H; simpl; constructor; auto.
  unfold interval_length. lra.
Qed.

Lemma exp_neg_antitone (x y : R) : x <= y -> exp (- y) <= exp (- x).
Proof.
  intros [Hlt| ->]; [|lra].
  left. apply exp_increasing. lra.
Qed.

Lemma exp_neg_antitone_list (c1 c2 : list R) :
  Forall2 Rle c1 c2 ->
  Forall2 (fun s1 s2 => s2 <= s1) (map exp (map Ropp c1)) (map exp (map Ropp c2)).
Proof.
  induction 1; simpl; constructor; auto using exp_neg_antitone.
Qed.

Lemma StronglySorted_nth (P : R -> R -> Prop) (l : list R) (d : R) :
  (forall x, P x x) ->
  StronglySorted P l ->
  forall i j, (i <= j < length l)%nat -> P (nth i l d) (nth j l d).
Proof.
  intros Hrefl Hs. induction Hs as [|x l Hs IH Hx]; intros i j Hij; simpl in Hij.
  - lia.
  - destruct i as [|i], j as [|j]; simpl; try lia.
    + apply Hrefl.
    + rewrite Forall_forall in Hx. apply Hx, nth_In. lia.
    + apply IH. lia.
Qed.

(** C4. For a non-negative hazard, the cumulative hazard is non-decreasing:
    the list is sorted for [<=], that is, an earlier entry never exceeds a
    later one. *)
Theorem cum_hazard_nondecreasing (hazard : list R) :
  Forall (Rle 0) hazard ->
  StronglySorted Rle (cum_hazard hazard)
  /\ forall i j, (i <= j < length hazard)%nat ->
       nth i (cum_hazard hazard) 0 <= nth j (cum_hazard hazard) 0.
Proof.
  intros H.
  assert (Hs : StronglySorted Rle (cum_hazard hazard)).
  { unfold cum_hazard, cumsum. apply (cumsum_from_sorted 0), scaled_nonneg, H. }
  split; [assumption|].
  intros i j Hij. apply StronglySorted_nth; [intros; lra|assumption|].
  now rewrite cum_hazard_length.
Qed.

(** C5. The survival curve is the exponential of the negated cumulative
    hazard, entry by entry; entry [i] is [exp] of minus [interval_length]
    times the sum of the hazard over the intervals up to [i]. *)
Theorem survival_exp_neg_cum_hazard (hazard : list R) :
  length (survival hazard) = length (cum_hazard hazard)
  /\ (forall i, (i < length hazard)%nat ->
        nth i (survival hazard) 0 = exp (- nth i (cum_hazard hazard) 0))
  /\ (forall i, (i < length hazard)%nat ->
        nth i (survival hazard) 0
        = exp (- (IZR interval_length * Rsum (firstn (S i) hazard)))).
Proof.
  assert (Hnth : forall i, (i < length hazard)%nat ->
            nth i (survival hazard) 0 = exp (- nth i (cum_hazard hazard) 0)).
  { intros i Hi. unfold survival.
    rewrite (nth_indep _ 0 (exp (- 0)))
      by now rewrite !length_map, cum_hazard_length.
    rewrite (map_nth exp), (map_nth Ropp). reflexivity. }
  split; [now rewrite survival_length, cum_hazard_length|].
  split; [exact Hnth|].
  intros i Hi. rewrite Hnth by assumption. f_equal. f_equal.
  unfold cum_hazard, cumsum.
  rewrite cumsum_from_nth by now rewrite length_map.
  rewrite Rplus_0_l, firstn_map.
  generalize (firstn (S i) hazard) as l.
  induction l as [|x l IH]; simpl; [lra|]. rewrite IH. lra.
Qed.

(** C10. The survival curve is antitone in the hazard: if [h1 <= h2] entry
    by entry (so the two have the same length), then the survival curve of
    [h1] is, entry by entry, at least that of [h2].  Non-negativity of the
    hazards is not needed. *)
Theorem survival_antitone (h1 h2 : list R) :
  Forall2 Rle h1 h2 ->
  Forall2 (fun s1 s2 => s2 <= s1) (survival h1) (survival h2).
Proof.
  intros H. unfold survival.
  apply exp_neg_antitone_list, cum_hazard_monotone, H.
Qed.

(** The metastized group: scaling a non-negative baseline hazard by
    [exp beta] with [beta >= 0] lowers the survival curve entry by entry. *)
Corollary survival_met_hazard_below (lambda0 : list R) (beta : R) :
  Forall (Rle 0) lambda0 -> 0 <= beta ->
  Forall2 (fun s_base s_met => s_met <= s_base)
          (survival lambda0) (survival (met_hazard_draw lambda0 beta)).
Proof.
  intros Hl Hb. unfold survival.
  apply exp_neg_antitone_list, cum_hazard_monotone.
  unfold met_hazard_draw.
  assert (1 <= exp beta).
  { rewrite <- exp_0. destruct Hb as [Hb| <-]; [|lra].
    left. now apply exp_increasing. }
  induction Hl as [|x l Hx _ IH]; simpl; constructor; [nra|exact IH].
Qed.

End Curves.

(** *** Percentiles *)

Section Percentiles.
Local Open Scope R_scope.

Lemma insert_sorted_length (x : R) (l : list R) :
  length (insert_sorted x l) = S (length l).
Proof.
  induction l as [|y l IH]; simpl; [reflexivity|].
  destruct (Rle_dec x y); simpl; auto.
Qed.

Lemma sort_length (l : list R) : length (sort l) = length l.
Proof.
  induction l as [|x l IH]; simpl; [reflexivity|].
  now rewrite insert_sorted_length, IH.
Qed.

Lemma insert_sorted_Forall (P : R -> Prop) (x : R) (l : list R) :
  P x -> Forall P l -> Forall P (insert_sorted x l).
Proof.
  intros Hx Hl. induction Hl as [|y l Hy Hl IH]; simpl.
  - auto.
  - destruct (Rle_dec x y); auto.
Qed.

Lemma insert_sorted_sorted (x : R) (l : list R) :
  StronglySorted Rle l -> StronglySorted Rle (insert_sorted x l).
Proof.
  induction 1 as [|y l Hs IH Hy]; simpl.
  - repeat constructor.
  - destruct (Rle_dec x y) as [Hxy|Hxy].
    + constructor; [now constructor|].
      constructor; [assumption|].
      eapply Forall_impl; [|exact Hy]. simpl. intros; lra.
    + constructor; [assumption|].
      apply insert_sorted_Forall; [lra|assumption].
Qed.

Lemma sort_sorted (l : list R) : StronglySorted Rle (sort l).
Proof.
  induction l as [|x l IH]; simpl; [constructor|].
  now apply insert_sorted_sorted.
Qed.

(** Sorting leaves a sorted sample as it is. *)
Lemma sort_sorted_id (l : list R) : StronglySorted Rle l -> sort l = l.
Proof.
  induction 1 as [|x l Hs IH Hx]; simpl; [reflexivity|].
  rewrite IH. destruct l as [|y l]; simpl; [reflexivity|].
  inversion Hx; subst.
  destruct (Rle_dec x y); [reflexivity|contradiction].
Qed.

Lemma Int_part_bounds (r : R) :
  IZR (Int_part r) <= r < IZR (Int_part r) + 1.
Proof. destruct (base_Int_part r). lra. Qed.

(** The position [q / 100 * (n - 1)] lies between two consecutive indices
    of the sample. *)
Lemma interpolate_unfold (s : list R) (q : R) :
  s <> [] -> 0 <= q <= 100 ->
  exists b : nat,
    (b <= length s - 1)%nat
    /\ INR b <= q / 100 * INR (length s - 1) < INR b + 1
    /\ interpolate s q
       = nth b s 0 * (1 - (q / 100 * INR (length s - 1) - INR b))
         + nth (Nat.min (S b) (length s - 1)) s 0
           * (q / 100 * INR (length s - 1) - INR b).
Proof.
  intros Hs Hq. unfold interpolate.
  set (idx := q / 100 * INR (length s - 1)).
  pose proof (pos_INR (length s - 1)) as HN.
  assert (Hidx : 0 <= idx <= INR (length s - 1)) by (unfold idx; nra).
  destruct (Int_part_bounds idx) as [Hlo Hhi].
  assert (H0 : (0 <= Int_part idx)%Z).
  { assert (-1 < Int_part idx)%Z; [|lia]. apply lt_IZR. lra. }
  assert (Hk : IZR (Int_part idx) = INR (Z.to_nat (Int_part idx))).
  { rewrite INR_IZR_INZ, Z2Nat.id by assumption. reflexivity. }
  exists (Z.to_nat (Int_part idx)).
  split.
  - apply INR_le. lra.
  - split; [lra|]. rewrite Hk. reflexivity.
Qed.

(** On a sorted sample the interpolated value grows with [q]. *)
Lemma interpolate_monotone (s : list R) (q1 q2 : R) :
  StronglySorted Rle s -> s <> [] ->
  0 <= q1 -> q1 <= q2 -> q2 <= 100 ->
  interpolate s q1 <= interpolate s q2.
Proof.
  intros Hs Hne H0 H12 H100.
  destruct (interpolate_unfold s q1 Hne) as [b1 [Hb1 [Hi1 ->]]]; [lra|].
  destruct (interpolate_unfold s q2 Hne) as [b2 [Hb2 [Hi2 ->]]]; [lra|].
  pose proof (pos_INR (length s - 1)) as HN.
  set (N := INR (length s - 1)) in *.
  assert (Hlen : (0 < length s)%nat) by (destruct s; simpl; [congruence|lia]).
  assert (Hidx : q1 / 100 * N <= q2 / 100 * N) by nra.
  assert (Hb : (b1 <= b2)%nat).
  { assert (b1 < S b2)%nat; [|lia]. apply INR_lt. rewrite S_INR. lra. }
  assert (Hnth : forall i j, (i <= j < length s)%nat -> nth i s 0 <= nth j s 0).
  { apply StronglySorted_nth; [intros; lra|assumption]. }
  assert (Hx1 : nth b1 s 0 <= nth (Nat.min (S b1) (length s - 1)) s 0)
    by (apply Hnth; lia).
  assert (Hx2 : nth b2 s 0 <= nth (Nat.min (S b2) (length s - 1)) s 0)
    by (apply Hnth; lia).
  destruct (Nat.eq_dec b1 b2) as [->|Hneq].
  - nra.
  - assert (Hmid : nth (Nat.min (S b1) (length s - 1)) s 0 <= nth b2 s 0)
      by (apply Hnth; lia).
    nra.
Qed.

Lemma percentile_some (a : list R) (q : R) :
  a <> [] -> 0 <= q <= 100 ->
  percentile a q = Some (interpolate (sort a) q).
Proof.
  intros Ha [H0 H100]. unfold percentile.
  destruct a; [congruence|].
  destruct (Rle_dec 0 q); [|contradiction].
  destruct (Rle_dec q 100); [reflexivity|contradiction].
Qed.

Lemma percentile_monotone (a : list R) (q1 q2 : R) :
  a <> [] -> 0 <= q1 -> q1 <= q2 -> q2 <= 100 ->
  exists v1 v2,
    percentile a q1 = Some v1 /\ percentile a q2 = Some v2 /\ v1 <= v2.
Proof.
  intros Ha H0 H12 H100.
  rewrite !percentile_some by (try assumption; lra).
  do 2 eexists. split; [reflexivity|]. split; [reflexivity|].
  apply interpolate_monotone; try assumption.
  - apply sort_sorted.
  - intros Hs. apply (f_equal (@length R)) in Hs.
    rewrite sort_length in Hs. destruct a; [congruence|discriminate].
Qed.

Lemma column_nonempty (j : nat) (m : list (list R)) :
  m <> [] -> column j m <> [].
Proof. destruct m; [congruence|discriminate]. Qed.

(** C1, for the two edges of the band. For at least one posterior draw and
    a significance
    level [alpha] in (0, 1), [plot_with_hpd] draws a band whose lower edge
    (the [100 * alpha / 2] percentile over draws of [f]) is, interval by
    interval, at most its upper edge (the [100 * (1 - alpha / 2)]
    percentile). *)
Theorem hpd_band_ordered
    (hazard : list (list R)) (f : list R -> list R) (alpha : R) :
  hazard <> [] -> 0 < alpha < 1 ->
  exists p,
    plot_with_hpd hazard f alpha = Some p
    /\ mean_line p = f (mean_axis0 hazard)
    /\ length (hpd_lower p) = ncols (map f hazard)
    /\ Forall2 Rle (hpd_lower p) (hpd_upper p).
Proof.
  intros Hne Ha. unfold plot_with_hpd, percentile_axis0.
  assert (Hfh : map f hazard <> []) by (destruct hazard; [congruence|discriminate]).
  set (fh := map f hazard) in *.
  assert (Hcols : forall j, exists v1 v2,
            percentile (column j fh) (100 * (alpha / 2)) = Some v1
            /\ percentile (column j fh) (100 * (1 - alpha / 2)) = Some v2
            /\ v1 <= v2).
  { intros j. apply percentile_monotone; [now apply column_nonempty|lra|lra|lra]. }
  assert (Hall : forall js, exists lo hi,
            all_some (map (fun j => percentile (column j fh) (100 * (alpha / 2))) js)
              = Some lo
            /\ all_some (map (fun j => percentile (column j fh)
                                         (100 * (1 - alpha / 2))) js)
              = Some hi
            /\ length lo = length js
            /\ Forall2 Rle lo hi).
  { induction js as [|j js [lo [hi [Hlo [Hhi [Hlen Hle]]]]]]; simpl.
    - exists [], []. repeat split; constructor.
    - destruct (Hcols j) as [v1 [v2 [-> [-> Hv]]]].
      rewrite Hlo, Hhi. exists (v1 :: lo), (v2 :: hi).
      repeat split; [simpl; now rewrite Hlen|constructor; assumption]. }
  destruct (Hall (seq 0 (ncols fh))) as [lo [hi [-> [-> [Hlen Hle]]]]].
  rewrite length_seq in Hlen.
  eexists. split; [reflexivity|]. split; [reflexivity|].
  split; [exact Hlen|exact Hle].
Qed.

End Percentiles.

(** ** Concrete data sets and draws *)

Section Examples.

(** *** Where the data preparation departs from the expected invariants *)

(** C2: the subject of [df_censored] is censored, and the row of the death
    matrix holds no 1 at all. *)
Lemma death_row_censored_all_zero :
  death df_censored = Some [[0; 0]]%Z
  /\ count_occ Z.eq_dec [0; 0]%Z 1%Z = 0%nat
  /\ ~ Forall (fun row => count_occ Z.eq_dec row 1%Z = 1%nat) [[0; 0]]%Z.
Proof.
  split; [reflexivity|]. split; [reflexivity|].
  intros H. inversion H as [|row rows Hrow _]. discriminate Hrow.
Qed.

(** C8: the only time of [df_short] is positive (and is the maximum), yet
    the last period computed for it is -1, below the range [0, 1). *)
Lemma last_period_negative_for_short_time :
  Forall (fun o => (0 < time o)%Q) df_short
  /\ series_max (map time df_short) = Some (1 # 200)
  /\ n_intervals df_short = Some 1%Z
  /\ last_period df_short = [(-1)%Z]
  /\ ~ Forall (fun k => (0 <= k < 1)%Z) (last_period df_short).
Proof.
  split; [repeat constructor|].
  split; [reflexivity|]. split; [reflexivity|]. split; [reflexivity|].
  intros H. change (last_period df_short) with [(-1)%Z] in H.
  inversion H as [|k ks Hk _]. lia.
Qed.

(** C6: the only time of [df_short] is positive, yet the exposure matrix
    built from it holds a negative entry: the index -1 selects the last
    bound, 3, and 0.005 - 3 is stored. *)
Lemma exposure_negative_for_short_time :
  Forall (fun o => (0 < time o)%Q) df_short
  /\ exposure df_short = Some [[(-2)%Z]]
  /\ ~ Forall (Forall (fun x => (0 <= x)%Z)) [[(-2)%Z]].
Proof.
  split; [repeat constructor|]. split; [reflexivity|].
  intros H. inversion H as [|row rows Hrow _].
  inversion Hrow as [|x xs Hx _]. lia.
Qed.

(** C9: the time 3.005 of [df_near_bound] is positive and not a multiple of
    [interval_length], yet the subject's exposure row sums to 6. *)
Lemma exposure_row_sum_near_bound :
  (0 < 601 # 200)%Q
  /\ (forall k : Z, ~ (601 # 200 == inject_Z (interval_length * k))%Q)
  /\ exposure df_near_bound = Some [[3; 3]]%Z
  /\ row_sum [3; 3]%Z = 6%Z
  /\ ~ (inject_Z (row_sum [3; 3]%Z) == 601 # 200)%Q.
Proof.
  split; [reflexivity|]. split.
  - intros k H. unfold Qeq, interval_length in H. simpl in H. lia.
  - split; [reflexivity|]. split; [reflexivity|]. intros H. discriminate H.
Qed.

(** The same row for a time that is not a whole number of months: 4.5
    months are stored as 3 + 1. *)
Lemma exposure_row_truncates :
  exposure [obs (9 # 2) true false] = Some [[3; 1]]%Z.
Proof. reflexivity. Qed.

(** A time that is an exact multiple of [interval_length] is counted as at
    risk in the interval that starts there: 6 months give a row summing
    to 9. *)
Lemma exposure_row_exact_multiple :
  exposure [obs 6 true false] = Some [[3; 3; 3]]%Z.
Proof. reflexivity. Qed.

(** *** The data preparation on [df_head] *)

Lemma interval_bounds_partition_df_head :
  exists bs,
    interval_bounds df_head = Some bs
    /\ (2 <= length bs)%nat
    /\ nth 0 bs 0%Z = 0%Z
    /\ (forall i, (i < length bs)%nat ->
          nth i bs 0%Z = (Z.of_nat i * interval_length)%Z)
    /\ (forall i, (S i < length bs)%nat ->
          (nth (S i) bs 0 - nth i bs 0 = interval_length)%Z)
    /\ (forall i j, (i < j < length bs)%nat -> (nth i bs 0 < nth j bs 0)%Z)
    /\ (100 < inject_Z (last bs 0%Z))%Q.
Proof.
  apply (interval_bounds_partition df_head 100); reflexivity.
Defined.

Lemma last_period_in_bounds_df_head :
  exists n,
    n_intervals df_head = Some n
    /\ Forall (fun k => (0 <= k < n)%Z) (last_period df_head)
    /\ (exists D, death df_head = Some D)
    /\ (exists E, exposure df_head = Some E).
Proof.
  apply (last_period_in_bounds df_head);
    [discriminate | repeat constructor; discriminate].
Defined.

Lemma death_row_indicator_df_head :
  exists D n,
    death df_head = Some D
    /\ n_intervals df_head = Some n
    /\ length D = n_patients df_head
    /\ Forall2 (fun o row =>
                  Z.of_nat (length row) = n
                  /\ Forall (fun d => d = 0%Z \/ d = 1%Z) row
                  /\ count_occ Z.eq_dec row 1%Z = (if event o then 1 else 0)%nat)
               df_head D.
Proof.
  apply (death_row_indicator df_head); [discriminate | repeat constructor].
Defined.

Lemma exposure_nonneg_df_head :
  exists E,
    exposure df_head = Some E
    /\ Forall (Forall (fun x => (0 <= x)%Z)) E.
Proof.
  apply (exposure_nonneg df_head);
    [discriminate | repeat constructor; discriminate].
Defined.

Lemma exposure_row_sum_df_head :
  exists E row,
    exposure df_head = Some E
    /\ nth_error E 0 = Some row
    /\ row_sum row = 23%Z.
Proof.
  apply (exposure_row_sum_whole_months df_head 0 (obs 23 true false) 23);
    [repeat constructor | reflexivity | reflexivity | reflexivity
    | discriminate].
Defined.

(** *** Curves and bands on concrete draws *)

Local Open Scope R_scope.

Lemma cum_hazard_nondecreasing_example :
  StronglySorted Rle (cum_hazard [1; 2])
  /\ forall i j, (i <= j < length [1; 2])%nat ->
       nth i (cum_hazard [1; 2]) 0 <= nth j (cum_hazard [1; 2]) 0.
Proof.
  apply (cum_hazard_nondecreasing [1; 2]). repeat constructor; lra.
Defined.

Lemma survival_exp_neg_cum_hazard_example :
  nth 0 (survival [1; 2]) 0 = exp (- nth 0 (cum_hazard [1; 2]) 0).
Proof.
  apply (proj1 (proj2 (survival_exp_neg_cum_hazard [1; 2]))). simpl. lia.
Defined.

Lemma survival_antitone_example :
  Forall2 (fun s1 s2 => s2 <= s1) (survival [1; 2]) (survival [2; 2]).
Proof.
  apply (survival_antitone [1; 2] [2; 2]). repeat constructor; lra.
Defined.

Lemma hpd_band_ordered_skewed_draws :
  exists p,
    plot_with_hpd skewed_draws cum_hazard (1 / 2) = Some p
    /\ mean_line p = cum_hazard (mean_axis0 skewed_draws)
    /\ length (hpd_lower p) = ncols (map cum_hazard skewed_draws)
    /\ Forall2 Rle (hpd_lower p) (hpd_upper p).
Proof.
  apply (hpd_band_ordered skewed_draws cum_hazard (1 / 2));
    [discriminate | lra].
Defined.

(** C1: with the draws [skewed_draws], [f = cum_hazard] and
    [alpha = 1 / 2], both edges of the band are 0 (the 25th and 75th
    percentiles of 0, 0, 0, 0, 15) while the plotted mean is 3: the mean is
    above the upper edge. *)
Lemma mean_above_hpd_band :
  0 < 1 / 2 < 1
  /\ exists p,
       plot_with_hpd skewed_draws cum_hazard (1 / 2) = Some p
       /\ hpd_lower p = [0] /\ hpd_upper p = [0] /\ mean_line p = [3]
       /\ ~ Forall2 Rle (mean_line p) (hpd_upper p).
Proof.
  split; [lra|].
  exists (mkPlot [0] [0] [3]).
  split.
  - unfold plot_with_hpd, percentile_axis0.
    set (fh := map cum_hazard skewed_draws).
    assert (Hcol : column 0 fh
                   = [0 + 3 * 0; 0 + 3 * 0; 0 + 3 * 0; 0 + 3 * 0; 0 + 3 * 5])
      by reflexivity.
    assert (Hsort : sort (column 0 fh) = column 0 fh).
    { apply sort_sorted_id. rewrite Hcol. repeat constructor; lra. }
    assert (Hlo : percentile (column 0 fh) (100 * (1 / 2 / 2)) = Some 0).
    { rewrite percentile_some; [| rewrite Hcol; discriminate | split; lra].
      rewrite Hsort, Hcol. f_equal. unfold interpolate.
      change (length _) with 5%nat.
      replace (100 * (1 / 2 / 2) / 100 * INR (5 - 1)) with 1 by (simpl; lra).
      replace (Int_part 1) with 1%Z by (apply Int_part_spec; lra).
      simpl. lra. }
    assert (Hhi : percentile (column 0 fh) (100 * (1 - 1 / 2 / 2)) = Some 0).
    { rewrite percentile_some; [| rewrite Hcol; discriminate | split; lra].
      rewrite Hsort, Hcol. f_equal. unfold interpolate.
      change (length _) with 5%nat.
      replace (100 * (1 - 1 / 2 / 2) / 100 * INR (5 - 1)) with 3 by (simpl; lra).
      replace (Int_part 3) with 3%Z by (apply Int_part_spec; lra).
      simpl. lra. }
    change (ncols fh) with 1%nat.
    cbn [seq map all_some]. rewrite Hlo, Hhi.
    f_equal. f_equal.
    unfold mean_axis0, cum_hazard, cumsum, interval_length. simpl. f_equal. lra.
  - simpl. repeat split; try reflexivity.
    intros H. inversion H; subst. lra.
Qed.

(** C1, at the default [alpha = 0.05]: of 41 draws, 40 are zero, so the
    97.5th percentile is still 0, while the plotted mean is 3. *)
Lemma mean_above_hpd_band_default_alpha :
  exists p,
    plot_with_hpd (repeat [0] 40 ++ [[41]]) cum_hazard (5 / 100) = Some p
    /\ hpd_upper p = [0] /\ mean_line p = [3].
Proof.
  set (draws := repeat [0] 40 ++ [[41]]).
  assert (Hne : map cum_hazard draws <> []) by discriminate.
  assert (Hcol : column 0 (map cum_hazard draws)
                 = repeat (0 + 3 * 0) 40 ++ [0 + 3 * 41]) by reflexivity.
  assert (Hsorted : StronglySorted Rle (column 0 (map cum_hazard draws))).
  { rewrite Hcol. generalize 40%nat as n.
    induction n as [|n IH]; simpl.
    - repeat constructor.
    - constructor; [exact IH|].
      apply Forall_app. split.
      + apply Forall_forall. intros x Hx. apply repeat_spec in Hx. lra.
      + repeat constructor. lra. }
  destruct (percentile_monotone (column 0 (map cum_hazard draws))
              (100 * (5 / 100 / 2)) (100 * (1 - 5 / 100 / 2)))
    as [lo [hi [Hlo [Hhi _]]]];
    [rewrite Hcol; discriminate | lra | lra | lra |].
  assert (Hhi0 : hi = 0).
  { rewrite percentile_some in Hhi; [| rewrite Hcol; discriminate | split; lra].
    apply Some_eq in Hhi. subst hi.
    rewrite (sort_sorted_id _ Hsorted), Hcol.
    unfold interpolate. change (length _) with 41%nat.
    replace (100 * (1 - 5 / 100 / 2) / 100 * INR (41 - 1)) with 39
      by (simpl; lra).
    replace (Int_part 39) with 39%Z by (apply Int_part_spec; lra).
    simpl. lra. }
  exists (mkPlot [lo] [0] [3]).
  split; [|split; reflexivity].
  unfold plot_with_hpd, percentile_axis0.
  change (ncols (map cum_hazard draws)) with 1%nat.
  cbn [seq map all_some]. fold draws.
  rewrite Hlo, Hhi, Hhi0.
  f_equal. f_equal.
  unfold mean_axis0, cum_hazard, cumsum, interval_length. simpl. f_equal. lra.
Qed.

End Examples.

(** ** Further properties of the data preparation *)

Section DataPreparationMore.
Local Open Scope Q_scope.

Lemma update_nth {A : Type} (k j : nat) (v d : A) (l : list A) :
  (k < length l)%nat ->
  nth j (update k v l) d = if (j =? k)%nat then v else nth j l d.
Proof.
  revert k j; induction l as [|x l IH]; intros k j Hk; simpl in Hk; [lia|].
  destruct k as [|k], j as [|j]; simpl; try reflexivity.
  apply IH. lia.
Qed.

Lemma row_sum_zeros (n : nat) : row_sum (repeat 0%Z n) = 0%Z.
Proof. induction n; simpl; auto. Qed.

Lemma nth_repeat_zero (j n : nat) : nth j (repeat 0%Z n) 0%Z = 0%Z.
Proof.
  revert j; induction n as [|n IH]; intros [|j]; simpl; auto.
Qed.

Lemma Qfloor_unique (q : Q) (z : Z) :
  inject_Z z <= q -> q < inject_Z z + 1 -> Qfloor q = z.
Proof.
  intros Hlo Hhi.
  pose proof (Qfloor_le q) as H1. pose proof (Qlt_floor q) as H2.
  assert (Qfloor q < z + 1)%Z by (zify_Q; lra).
  assert (z < Qfloor q + 1)%Z by (zify_Q; lra).
  lia.
Qed.

Lemma Qtrunc_floor (q : Q) : 0 <= q -> Qtrunc q = Qfloor q.
Proof.
  intros Hq. destruct q as [n d]. unfold Qtrunc, Qfloor. simpl.
  unfold Qle in Hq. simpl in Hq.
  apply Z.quot_div_nonneg; lia.
Qed.

Lemma Qtrunc_le_m1 (q : Q) : q <= -1 -> (Qtrunc q <= -1)%Z.
Proof.
  intros Hq. destruct q as [n d]. unfold Qtrunc. simpl.
  unfold Qle in Hq. simpl in Hq.
  assert (Hn : (n <= - Z.pos d)%Z) by lia.
  apply (Z.quot_le_mono _ _ (Z.pos d)) in Hn; [|lia].
  rewrite Z.quot_opp_l, Z.quot_same in Hn by lia. exact Hn.
Qed.

(** The period of a whole number of months. *)
Lemma last_period_of_inject_Z (z : Z) :
  last_period_of (inject_Z z) = ((z - 1) / interval_length)%Z.
Proof.
  pose proof (Z.div_mod (z - 1) interval_length) as Hdiv.
  pose proof (Z.mod_pos_bound (z - 1) interval_length) as Hrem.
  unfold interval_length in *.
  set (k := ((z - 1) / 3)%Z) in *. set (r := ((z - 1) mod 3)%Z) in *.
  clearbody k r.
  assert (H1 : (3 * k + 1 <= z)%Z) by lia.
  assert (H2 : (z <= 3 * k + 3)%Z) by lia.
  rewrite Zle_Qle in H1, H2. clear Hdiv Hrem.
  apply last_period_of_unique; push_inject; lra.
Qed.

Lemma death_row_regular (m : Q) (o : Observation) :
  0 < m -> 1 # 100 <= time o -> time o <= m ->
  death_row (n_bounds m - 1) o
  = Some (update (Z.to_nat (last_period_of (time o))) (Z.b2z (event o))
                 (repeat 0%Z (Z.to_nat (n_bounds m - 1)))).
Proof.
  intros Hm Ht Hle. unfold death_row, set_item.
  pose proof (n_bounds_ge_2 m Hm).
  pose proof (last_period_of_nonneg _ Ht).
  pose proof (last_period_of_lt m _ Hle).
  rewrite repeat_length, norm_index_nonneg by lia. reflexivity.
Qed.

Lemma death_Forall2 (df : DataFrame) (m : Q) (D : list (list Z)) :
  series_max (map time df) = Some m -> 0 < m ->
  death df = Some D ->
  Forall2 (fun o row => death_row (n_bounds m - 1) o = Some row) df D.
Proof.
  intros Hm Hm0. unfold death. rewrite (n_intervals_eq df m Hm Hm0).
  pose proof (n_bounds_ge_2 m Hm0).
  destruct (Z.ltb_spec (n_bounds m - 1) 0); [lia|].
  intros HD. now apply all_some_map_Forall2 in HD.
Qed.

(** Shared set-up: the maximum of a non-empty column of positive times. *)
Lemma positive_max (df : DataFrame) :
  df <> [] -> Forall (fun o => 0 < time o) df ->
  exists m, series_max (map time df) = Some m /\ 0 < m
            /\ Forall (fun o => time o <= m) df.
Proof.
  intros Hne Hpos.
  destruct (series_max_nonempty (map time df)) as [m Hm].
  { destruct df; [congruence|discriminate]. }
  exists m. split; [assumption|].
  split; [eapply max_positive; eauto|now apply times_le_max].
Qed.

Lemma ge_hundredth_positive (df : DataFrame) :
  Forall (fun o => 1 # 100 <= time o) df -> Forall (fun o => 0 < time o) df.
Proof.
  intros H. eapply Forall_impl; [|exact H]. simpl. intros o Ho. lra.
Qed.

Lemma Forall2_Forall_l {A B : Type} (P : A -> Prop) (R S : A -> B -> Prop)
    (l : list A) (l' : list B) :
  Forall P l -> Forall2 R l l' ->
  (forall x y, P x -> R x y -> S x y) -> Forall2 S l l'.
Proof.
  intros HP HR Himp. induction HR as [|x y l l' Hxy _ IH]; constructor.
  - inversion HP; subst. auto.
  - inversion HP; subst. auto.
Qed.

(** X1. A whole number [z] of months falls in period [(z - 1) / 3]
    (integer division rounding down): interval [k] collects the times
    [3k < z <= 3k + 3]. *)
Theorem last_period_whole_months (z : Z) :
  last_period_of (inject_Z z) = ((z - 1) / interval_length)%Z
  /\ (interval_length * last_period_of (inject_Z z) < z
      <= interval_length * last_period_of (inject_Z z) + interval_length)%Z.
Proof.
  rewrite last_period_of_inject_Z. split; [reflexivity|].
  pose proof (Z.div_mod (z - 1) interval_length) as Hdiv.
  pose proof (Z.mod_pos_bound (z - 1) interval_length) as Hrem.
  unfold interval_length in *. lia.
Qed.

(** X2. For a non-empty data set whose times are positive whole numbers of
    months, the death matrix records a death in the interval the time falls
    in: entry [j] of a subject's row is 1 exactly when the death was
    observed and [interval_bounds[j] < time <= interval_bounds[j + 1]], and
    it is 0 otherwise. *)
Theorem death_entries_whole_months (df : DataFrame) :
  df <> [] ->
  Forall (fun o => exists z, time o = inject_Z z /\ (0 < z)%Z) df ->
  exists D bs,
    death df = Some D
    /\ interval_bounds df = Some bs
    /\ Forall2 (fun o row =>
                  forall j, (S j < length bs)%nat ->
                    (nth j row 0%Z = 0%Z \/ nth j row 0%Z = 1%Z)
                    /\ (nth j row 0%Z = 1%Z <->
                        event o = true
                        /\ inject_Z (nth j bs 0%Z) < time o
                           <= inject_Z (nth (S j) bs 0%Z)))
               df D.
Proof.
  intros Hne Hwhole.
  assert (Hge : Forall (fun o => 1 # 100 <= time o) df).
  { eapply Forall_impl; [|exact Hwhole]. simpl. intros o [z [Hz Hz0]].
    rewrite Hz. assert (H1 : 1 <= inject_Z z).
    { change 1 with (inject_Z 1). rewrite <- Zle_Qle. lia. }
    lra. }
  pose proof (ge_hundredth_positive df Hge) as Hpos.
  destruct (positive_max df Hne Hpos) as [m [Hm [Hm0 Hle]]].
  destruct (death_total df Hne Hpos) as [D HD].
  exists D, (bounds_of m).
  split; [assumption|]. split; [now apply interval_bounds_eq|].
  pose proof (death_Forall2 df m D Hm Hm0 HD) as Hrows.
  pose proof (n_bounds_ge_2 m Hm0) as H2.
  assert (Hboth : Forall (fun o => (exists z, time o = inject_Z z /\ (0 < z)%Z)
                                   /\ 1 # 100 <= time o /\ time o <= m) df).
  { rewrite Forall_forall in *. auto. }
  eapply Forall2_Forall_l; [exact Hboth|exact Hrows|].
  intros o row [[z [Hz Hz0]] [Ho1 Ho2]] Hrow j Hj.
  rewrite death_row_regular in Hrow by assumption.
  apply Some_eq in Hrow. subst row.
  pose proof (last_period_of_nonneg _ Ho1) as Hk0.
  pose proof (last_period_of_lt m _ Ho2) as Hkn.
  rewrite bounds_of_length in Hj.
  unfold bounds_of. rewrite !nth_map_seq by lia.
  rewrite update_nth by (rewrite repeat_length; lia).
  rewrite nth_repeat_zero.
  rewrite Hz in *. rewrite last_period_of_inject_Z in *.
  pose proof (Z.div_mod (z - 1) interval_length) as Hdiv.
  pose proof (Z.mod_pos_bound (z - 1) interval_length) as Hrem.
  unfold interval_length in *.
  set (k := ((z - 1) / 3)%Z) in *. clearbody k.
  rewrite <- Zlt_Qlt, <- Zle_Qle.
  destruct (Nat.eqb_spec j (Z.to_nat k)) as [Hjk|Hjk].
  - destruct (event o); simpl.
    + split; [right; reflexivity|].
      split; [intros _; split; [reflexivity|lia]|reflexivity].
    + split; [left; reflexivity|].
      split; [discriminate|intros [He _]; discriminate He].
  - split; [left; reflexivity|].
    split; [discriminate|intros [_ Hin]; lia].
Qed.

(** X3. For a non-empty data set of positive times, each row of the death
    matrix sums to the subject's event indicator, so the whole matrix sums
    to the number of observed deaths, [df.event.sum()]. *)
Theorem death_total_events (df : DataFrame) :
  df <> [] -> Forall (fun o => 0 < time o) df ->
  exists D,
    death df = Some D
    /\ Forall2 (fun o row => row_sum row = Z.b2z (event o)) df D
    /\ row_sum (map row_sum D) = row_sum (map (fun o => Z.b2z (event o)) df).
Proof.
  intros Hne Hpos.
  destruct (death_total df Hne Hpos) as [D HD].
  destruct (death_rows df D HD) as [n [_ [_ Hrows]]].
  exists D. split; [assumption|].
  assert (Hsum : Forall2 (fun o row => row_sum row = Z.b2z (event o)) df D).
  { eapply Forall2_impl; [|exact Hrows]. simpl.
    intros o row [k [Hk ->]].
    rewrite row_sum_update by (rewrite repeat_length; lia).
    rewrite row_sum_zeros, nth_repeat_zero. lia. }
  split; [exact Hsum|].
  clear - Hsum. induction Hsum as [|o row df D Hrow _ IH]; simpl; [reflexivity|].
  now rewrite Hrow, IH.
Qed.

End DataPreparationMore.

Section ExposureMore.
Local Open Scope Q_scope.

Lemma norm_index_neg (n : nat) (i : Z) :
  (- Z.of_nat n <= i < 0)%Z ->
  norm_index n i = Some (Z.to_nat (i + Z.of_nat n)).
Proof.
  intros [H1 H2]. unfold norm_index.
  destruct (Z.leb_spec 0 i); [lia|]. simpl.
  apply Z.leb_le in H1. apply Z.ltb_lt in H2. now rewrite H1, H2.
Qed.

Lemma exposure_row_length (m : Q) (o : Observation) (row : list Z) :
  0 < m -> exposure_row (bounds_of m) o = Some row ->
  length row = Z.to_nat (n_bounds m - 1).
Proof.
  intros Hm. unfold exposure_row.
  rewrite (removelast_bounds_of m (time o) Hm).
  destruct (get_item (bounds_of m) (last_period_of (time o))); [|discriminate].
  intros Hrow. apply set_item_inv in Hrow as [k [_ [_ ->]]].
  now rewrite update_length, at_risk_row_length.
Qed.

Lemma death_row_length (n : Z) (o : Observation) (row : list Z) :
  death_row n o = Some row -> length row = Z.to_nat n.
Proof.
  unfold death_row. intros Hrow.
  apply set_item_inv in Hrow as [k [_ [_ ->]]].
  now rewrite update_length, repeat_length.
Qed.

Lemma at_risk_row_bounded (n : nat) (t : Q) :
  Forall (fun x => (0 <= x <= interval_length)%Z) (at_risk_row n t).
Proof.
  unfold at_risk_row. apply Forall_map, Forall_forall. intros i _.
  destruct (Qle_bool _ _); unfold interval_length; lia.
Qed.

Lemma at_risk_row_nth_zero (t : Q) (n j : nat) :
  (j < n)%nat -> t < 3 * inject_Z (Z.of_nat j) ->
  nth j (at_risk_row n t) 0%Z = 0%Z.
Proof.
  intros Hj Hlt. unfold at_risk_row. rewrite nth_map_seq by assumption.
  destruct (Qle_bool (inject_Z (0 + Z.of_nat j * interval_length)) t) eqn:Hc;
    [|reflexivity].
  apply Qle_bool_iff in Hc. unfold interval_length in Hc.
  exfalso. push_inject. lra.
Qed.

(** The value stored at the last period of a time of at least 0.01. *)
Lemma last_interval_value (t : Q) :
  1 # 100 <= t ->
  Qtrunc (t - inject_Z (interval_length * last_period_of t))
  = Qfloor (t - inject_Z (interval_length * last_period_of t))
  /\ (0 <= Qtrunc (t - inject_Z (interval_length * last_period_of t))
        <= interval_length)%Z.
Proof.
  intros Ht. destruct (last_period_of_bounds t) as [Hlo Hhi].
  set (k := last_period_of t) in *. clearbody k.
  assert (H0 : 0 <= t - inject_Z (interval_length * k)).
  { unfold interval_length. push_inject. lra. }
  assert (H4 : t - inject_Z (interval_length * k) < 4).
  { unfold interval_length. push_inject. lra. }
  rewrite Qtrunc_floor by assumption.
  split; [reflexivity|].
  set (q := t - inject_Z (interval_length * k)) in *. clearbody q.
  pose proof (Qfloor_le q) as H1. pose proof (Qlt_floor q) as H2.
  unfold interval_length. split.
  - assert (-1 < Qfloor q)%Z; [|lia]. zify_Q. lra.
  - assert (Qfloor q < 4)%Z; [|lia]. zify_Q. lra.
Qed.

(** Rows of the exposure matrix for times of at least 0.01. *)
Lemma exposure_regular_rows (df : DataFrame) :
  df <> [] -> Forall (fun o => 1 # 100 <= time o) df ->
  exists E m,
    exposure df = Some E
    /\ series_max (map time df) = Some m /\ 0 < m
    /\ Forall2 (fun o row =>
                  1 # 100 <= time o /\ time o <= m
                  /\ row = update (Z.to_nat (last_period_of (time o)))
                             (Qtrunc (time o - inject_Z (interval_length
                                                  * last_period_of (time o))))
                             (at_risk_row (Z.to_nat (n_bounds m - 1)) (time o)))
               df E.
Proof.
  intros Hne Hge.
  pose proof (ge_hundredth_positive df Hge) as Hpos.
  destruct (positive_max df Hne Hpos) as [m [Hm [Hm0 Hle]]].
  destruct (exposure_total df Hne Hpos) as [E HE].
  exists E, m. split; [assumption|]. split; [assumption|]. split; [assumption|].
  pose proof (exposure_Forall2 df m E Hm HE) as Hrows.
  assert (Hboth : Forall (fun o => 1 # 100 <= time o /\ time o <= m) df).
  { rewrite Forall_forall in *. auto. }
  eapply Forall2_Forall_l; [exact Hboth|exact Hrows|].
  intros o row [Ho1 Ho2] Hrow.
  rewrite exposure_row_regular in Hrow by assumption.
  apply Some_eq in Hrow. auto.
Qed.

(** X4. For a non-empty data set of positive times, the death and exposure
    matrices are both built and have the same shape: one row per subject,
    [n_intervals] entries per row. *)
Theorem death_exposure_same_shape (df : DataFrame) :
  df <> [] -> Forall (fun o => 0 < time o) df ->
  exists D E n,
    death df = Some D /\ exposure df = Some E /\ n_intervals df = Some n
    /\ (1 <= n)%Z
    /\ length D = n_patients df /\ length E = n_patients df
    /\ Forall (fun row => Z.of_nat (length row) = n) D
    /\ Forall (fun row => Z.of_nat (length row) = n) E.
Proof.
  intros Hne Hpos.
  destruct (positive_max df Hne Hpos) as [m [Hm [Hm0 Hle]]].
  destruct (death_total df Hne Hpos) as [D HD].
  destruct (exposure_total df Hne Hpos) as [E HE].
  pose proof (n_bounds_ge_2 m Hm0) as H2.
  pose proof (death_Forall2 df m D Hm Hm0 HD) as HrD.
  pose proof (exposure_Forall2 df m E Hm HE) as HrE.
  exists D, E, (n_bounds m - 1)%Z.
  split; [assumption|]. split; [assumption|].
  split; [now apply n_intervals_eq|]. split; [lia|].
  split; [symmetry; exact (Forall2_length HrD)|].
  split; [symmetry; exact (Forall2_length HrE)|].
  split.
  - clear - HrD H2. induction HrD as [|o row df D Hrow _ IH]; constructor; auto.
    apply death_row_length in Hrow. lia.
  - clear - HrE H2 Hm0. induction HrE as [|o row df E Hrow _ IH]; constructor; auto.
    apply exposure_row_length in Hrow; [lia|assumption].
Qed.

(** X5. For a non-empty data set with all times at least 0.01, every entry
    of the exposure matrix lies between 0 and [interval_length]: no subject
    is at risk in one interval for longer than the interval lasts. *)
Theorem exposure_bounded (df : DataFrame) :
  df <> [] -> Forall (fun o => 1 # 100 <= time o) df ->
  exists E,
    exposure df = Some E
    /\ Forall (Forall (fun x => (0 <= x <= interval_length)%Z)) E.
Proof.
  intros Hne Hge.
  destruct (exposure_regular_rows df Hne Hge) as [E [m [HE [_ [_ Hrows]]]]].
  exists E. split; [assumption|].
  clear - Hrows. induction Hrows as [|o row df E [Ho [_ ->]] _ IH]; constructor; auto.
  apply update_Forall; [apply at_risk_row_bounded|].
  apply (last_interval_value (time o) Ho).
Qed.

(** X6. Layout of an exposure row for a time [t] of at least 0.01 with last
    period [k]: every interval before [k] holds [interval_length], interval
    [k] holds the whole months of [t] spent in it, [floor (t - 3k)], and
    every interval after [k + 1] holds 0. *)
Theorem exposure_row_layout (df : DataFrame) :
  df <> [] -> Forall (fun o => 1 # 100 <= time o) df ->
  exists E n,
    exposure df = Some E /\ n_intervals df = Some n
    /\ Forall2 (fun o row =>
                  forall j, (Z.of_nat j < n)%Z ->
                    ((Z.of_nat j < last_period_of (time o))%Z ->
                       nth j row 0%Z = interval_length)
                    /\ (Z.of_nat j = last_period_of (time o) ->
                          nth j row 0%Z
                          = Qfloor (time o - inject_Z (interval_length
                                                 * last_period_of (time o))))
                    /\ ((last_period_of (time o) + 1 < Z.of_nat j)%Z ->
                          nth j row 0%Z = 0%Z))
               df E.
Proof.
  intros Hne Hge.
  destruct (exposure_regular_rows df Hne Hge) as [E [m [HE [Hm [Hm0 Hrows]]]]].
  exists E, (n_bounds m - 1)%Z.
  split; [assumption|]. split; [now apply n_intervals_eq|].
  eapply Forall2_impl; [|exact Hrows]. simpl.
  intros o row [Ho1 [Ho2 ->]] j Hj.
  pose proof (last_period_of_nonneg _ Ho1) as Hk0.
  pose proof (last_period_of_lt m _ Ho2) as Hkn.
  destruct (last_period_of_bounds (time o)) as [Hlo Hhi].
  destruct (last_interval_value (time o) Ho1) as [Hfl _].
  set (k := last_period_of (time o)) in *. clearbody k.
  rewrite update_nth by (rewrite at_risk_row_length; lia).
  split; [|split].
  - intros Hjk. destruct (Nat.eqb_spec j (Z.to_nat k)); [lia|].
    apply at_risk_row_nth; [lia|].
    assert (Hq : inject_Z (Z.of_nat j) <= inject_Z k) by (rewrite <- Zle_Qle; lia).
    lra.
  - intros Hjk. destruct (Nat.eqb_spec j (Z.to_nat k)); [exact Hfl|lia].
  - intros Hjk. destruct (Nat.eqb_spec j (Z.to_nat k)); [lia|].
    apply at_risk_row_nth_zero; [lia|].
    assert (Hq : inject_Z (k + 2) <= inject_Z (Z.of_nat j))
      by (rewrite <- Zle_Qle; lia).
    rewrite inject_Z_plus in Hq. change (inject_Z 2) with 2 in Hq. lra.
Qed.

End ExposureMore.

Section ExposureSums.
Local Open Scope Q_scope.

(** The rows of one subject, for a time of at least 0.01, in a data set of
    positive times. *)
Lemma subject_rows (df : DataFrame) (i : nat) (o : Observation) :
  Forall (fun o' => 0 < time o') df ->
  nth_error df i = Some o ->
  1 # 100 <= time o ->
  exists D E m drow erow,
    death df = Some D /\ exposure df = Some E
    /\ series_max (map time df) = Some m /\ 0 < m /\ time o <= m
    /\ nth_error D i = Some drow /\ nth_error E i = Some erow
    /\ drow = update (Z.to_nat (last_period_of (time o))) (Z.b2z (event o))
                (repeat 0%Z (Z.to_nat (n_bounds m - 1)))
    /\ erow = update (Z.to_nat (last_period_of (time o)))
                (Qtrunc (time o - inject_Z (interval_length
                                            * last_period_of (time o))))
                (at_risk_row (Z.to_nat (n_bounds m - 1)) (time o)).
Proof.
  intros Hpos Hi Ht.
  assert (Hne : df <> []) by (intros ->; destruct i; discriminate).
  destruct (positive_max df Hne Hpos) as [m [Hm [Hm0 Hle]]].
  destruct (death_total df Hne Hpos) as [D HD].
  destruct (exposure_total df Hne Hpos) as [E HE].
  pose proof (death_Forall2 df m D Hm Hm0 HD) as HrD.
  pose proof (exposure_Forall2 df m E Hm HE) as HrE.
  destruct (Forall2_nth_error_left _ _ _ _ _ HrD Hi) as [drow [Hdrow Hd]].
  destruct (Forall2_nth_error_left _ _ _ _ _ HrE Hi) as [erow [Herow He]].
  assert (Hom : time o <= m).
  { rewrite Forall_forall in Hle. apply Hle. eapply nth_error_In; eauto. }
  rewrite death_row_regular in Hd by assumption.
  rewrite exposure_row_regular in He by assumption.
  apply Some_eq in Hd, He.
  exists D, E, m, drow, erow. repeat (split; [assumption|]). assumption.
Qed.

(** Sum of an exposure row whose last-period entry is [v]: the full
    intervals up to [floor (t / 3)], the one at the last period replaced
    by [v]. *)
Lemma regular_row_sum (m t : Q) (v : Z) :
  0 < m -> 1 # 100 <= t -> t <= m ->
  row_sum (update (Z.to_nat (last_period_of t)) v
             (at_risk_row (Z.to_nat (n_bounds m - 1)) t))
  = (interval_length * Qfloor (t / inject_Z interval_length) + v)%Z.
Proof.
  intros Hm Ht Hle.
  pose proof (last_period_of_nonneg _ Ht) as Hk0.
  pose proof (last_period_of_lt m _ Hle) as Hkn.
  destruct (last_period_of_bounds t) as [Hlo _].
  destruct (Qfloor_thirds t) as [Hj1 Hj2].
  destruct (n_bounds_spec m) as [HN _].
  set (k := last_period_of t) in *. clearbody k.
  set (j := Qfloor (t / inject_Z interval_length)) in *. clearbody j.
  assert (Hj0 : (0 <= j)%Z).
  { assert (-1 < j)%Z; [|lia]. zify_Q. lra. }
  assert (Hjn : (j < n_bounds m - 1)%Z) by (zify_Q; lra).
  rewrite row_sum_update by (rewrite at_risk_row_length; lia).
  rewrite (at_risk_row_sum t j) by assumption.
  rewrite at_risk_row_nth by (try lia; rewrite Z2Nat.id by lia; lra).
  unfold interval_length. lia.
Qed.

(** X7. A subject observed for a whole number [z] of months that is a
    positive multiple of [interval_length] has an exposure row that sums to
    [z + interval_length]: the interval starting at [z] is counted as fully
    at risk. *)
Theorem exposure_row_sum_exact_multiple
    (df : DataFrame) (i : nat) (o : Observation) (z : Z) :
  Forall (fun o' => 0 < time o') df ->
  nth_error df i = Some o ->
  time o = inject_Z z ->
  (0 < z)%Z -> (z mod interval_length = 0)%Z ->
  exists E row,
    exposure df = Some E
    /\ nth_error E i = Some row
    /\ row_sum row = (z + interval_length)%Z.
Proof.
  intros Hpos Hi Ht Hz Hmod.
  assert (Hz1 : 1 <= inject_Z z).
  { change 1 with (inject_Z 1). rewrite <- Zle_Qle. lia. }
  assert (Ht1 : 1 # 100 <= time o) by (rewrite Ht; clear - Hz1; lra).
  destruct (subject_rows df i o Hpos Hi Ht1)
    as [D [E [m [drow [erow [_ [HE [_ [Hm0 [Hom [_ [Herow [_ ->]]]]]]]]]]]]].
  exists E. eexists. split; [assumption|]. split; [exact Herow|].
  rewrite regular_row_sum by assumption.
  rewrite Ht, last_period_of_inject_Z, Qtrunc_inject_Z_sub, <- Zdiv_Qdiv.
  pose proof (Z.div_mod z interval_length) as Hdiv.
  pose proof (Z.div_mod (z - 1) interval_length) as Hdiv1.
  pose proof (Z.mod_pos_bound (z - 1) interval_length) as Hrem1.
  unfold interval_length in *. lia.
Qed.

Lemma Qfloor_sub_inject_Z (q : Q) (a : Z) :
  Qfloor (q - inject_Z a) = (Qfloor q - a)%Z.
Proof.
  pose proof (Qfloor_le q) as H1. pose proof (Qlt_floor q) as H2.
  apply Qfloor_unique; push_inject; lra.
Qed.

(** X8. A subject observed for a time [t] of at least 0.01 whose last period
    is [floor (t / interval_length)] (that is, [t] is not within 0.01 above
    a multiple of [interval_length]) has an exposure row that sums to [t]
    rounded down to whole months. *)
Theorem exposure_row_sum_rounds_down
    (df : DataFrame) (i : nat) (o : Observation) :
  Forall (fun o' => 0 < time o') df ->
  nth_error df i = Some o ->
  1 # 100 <= time o ->
  last_period_of (time o) = Qfloor (time o / inject_Z interval_length) ->
  exists E row,
    exposure df = Some E
    /\ nth_error E i = Some row
    /\ row_sum row = Qfloor (time o).
Proof.
  intros Hpos Hi Ht1 Hlp.
  destruct (subject_rows df i o Hpos Hi Ht1)
    as [D [E [m [drow [erow [_ [HE [_ [Hm0 [Hom [_ [Herow [_ ->]]]]]]]]]]]]].
  exists E. eexists. split; [assumption|]. split; [exact Herow|].
  rewrite regular_row_sum by assumption.
  destruct (last_interval_value (time o) Ht1) as [-> _].
  rewrite Qfloor_sub_inject_Z, <- Hlp. lia.
Qed.

(** X9. For a subject observed for a positive whole number [z] of months,
    the exposure in the subject's last period is [z - 3 * ((z - 1) / 3)],
    between 1 and [interval_length]; so wherever the death row holds a 1 the
    exposure row is positive. *)
Theorem death_where_exposure_positive
    (df : DataFrame) (i : nat) (o : Observation) (z : Z) :
  Forall (fun o' => 0 < time o') df ->
  nth_error df i = Some o ->
  time o = inject_Z z ->
  (0 < z)%Z ->
  exists D E drow erow,
    death df = Some D /\ exposure df = Some E
    /\ nth_error D i = Some drow /\ nth_error E i = Some erow
    /\ nth (Z.to_nat ((z - 1) / interval_length)) erow 0%Z
       = (z - interval_length * ((z - 1) / interval_length))%Z
    /\ forall j, nth j drow 0%Z = 1%Z ->
         (1 <= nth j erow 0 <= interval_length)%Z.
Proof.
  intros Hpos Hi Ht Hz.
  assert (Hz1 : 1 <= inject_Z z).
  { change 1 with (inject_Z 1). rewrite <- Zle_Qle. lia. }
  assert (Ht1 : 1 # 100 <= time o) by (rewrite Ht; clear - Hz1; lra).
  destruct (subject_rows df i o Hpos Hi Ht1)
    as [D [E [m [drow [erow [HD [HE [_ [Hm0 [Hom [Hdrow [Herow [-> ->]]]]]]]]]]]]].
  exists D, E. do 2 eexists.
  split; [assumption|]. split; [assumption|].
  split; [exact Hdrow|]. split; [exact Herow|].
  pose proof (last_period_of_lt m _ Hom) as Hkn.
  pose proof (last_period_of_nonneg _ Ht1) as Hk0.
  rewrite Ht, last_period_of_inject_Z, Qtrunc_inject_Z_sub in *.
  pose proof (Z.div_mod (z - 1) interval_length) as Hdiv.
  pose proof (Z.mod_pos_bound (z - 1) interval_length) as Hrem.
  set (k := ((z - 1) / interval_length)%Z) in *. clearbody k.
  assert (Hval : nth (Z.to_nat k)
                   (update (Z.to_nat k) (z - interval_length * k)%Z
                      (at_risk_row (Z.to_nat (n_bounds m - 1)) (inject_Z z))) 0%Z
                 = (z - interval_length * k)%Z).
  { rewrite update_nth by (rewrite at_risk_row_length; lia).
    now rewrite Nat.eqb_refl. }
  split; [exact Hval|].
  intros j Hj.
  rewrite update_nth in Hj by (rewrite repeat_length; lia).
  rewrite nth_repeat_zero in Hj.
  destruct (Nat.eqb_spec j (Z.to_nat k)) as [Hjk|Hjk];
    [subst j|discriminate Hj].
  rewrite Hval. unfold interval_length in *. lia.
Qed.

(** X10. A subject observed for a positive time below 0.01 gets last period
    -1, which NumPy reads as the last interval: the event indicator is
    stored in the last column of the death matrix, and the last column of
    the exposure matrix receives the negative value [time - last bound]. *)
Theorem short_time_wraps_to_last_interval
    (df : DataFrame) (i : nat) (o : Observation) :
  Forall (fun o' => 0 < time o') df ->
  nth_error df i = Some o ->
  time o < 1 # 100 ->
  exists D E n drow erow,
    last_period_of (time o) = (-1)%Z
    /\ death df = Some D /\ exposure df = Some E /\ n_intervals df = Some n
    /\ nth_error D i = Some drow /\ nth_error E i = Some erow
    /\ nth (Z.to_nat (n - 1)) drow 0%Z = Z.b2z (event o)
    /\ (nth (Z.to_nat (n - 1)) erow 0 < 0)%Z.
Proof.
  intros Hpos Hi Hshort.
  assert (Hne : df <> []) by (intros ->; destruct i; discriminate).
  assert (Ht0 : 0 < time o).
  { rewrite Forall_forall in Hpos. apply Hpos. eapply nth_error_In; eauto. }
  assert (Hlp : last_period_of (time o) = (-1)%Z).
  { apply last_period_of_unique; change (inject_Z (-1)) with (-1 # 1); lra. }
  destruct (positive_max df Hne Hpos) as [m [Hm [Hm0 Hle]]].
  destruct (death_total df Hne Hpos) as [D HD].
  destruct (exposure_total df Hne Hpos) as [E HE].
  pose proof (death_Forall2 df m D Hm Hm0 HD) as HrD.
  pose proof (exposure_Forall2 df m E Hm HE) as HrE.
  destruct (Forall2_nth_error_left _ _ _ _ _ HrD Hi) as [drow [Hdrow Hd]].
  destruct (Forall2_nth_error_left _ _ _ _ _ HrE Hi) as [erow [Herow He]].
  pose proof (n_bounds_ge_2 m Hm0) as H2.
  exists D, E, (n_bounds m - 1)%Z, drow, erow.
  split; [assumption|]. split; [assumption|]. split; [assumption|].
  split; [now apply n_intervals_eq|].
  split; [assumption|]. split; [assumption|].
  split.
  - unfold death_row, set_item in Hd. rewrite Hlp, repeat_length in Hd.
    rewrite norm_index_neg in Hd by lia.
    apply Some_eq in Hd. subst drow.
    rewrite Z2Nat.id by lia.
    replace (-1 + (n_bounds m - 1))%Z with (n_bounds m - 1 - 1)%Z by lia.
    rewrite update_nth by (rewrite repeat_length; lia).
    now rewrite Nat.eqb_refl.
  - unfold exposure_row in He.
    rewrite (removelast_bounds_of m (time o) Hm0) in He.
    unfold get_item, set_item in He.
    rewrite Hlp, bounds_of_length, at_risk_row_length in He.
    rewrite !norm_index_neg in He by lia.
    unfold bounds_of in He. rewrite nth_error_map_seq in He by lia.
    apply Some_eq in He. subst erow.
    rewrite !Z2Nat.id by lia.
    replace (-1 + (n_bounds m - 1))%Z with (n_bounds m - 1 - 1)%Z by lia.
    rewrite update_nth by (rewrite at_risk_row_length; lia).
    rewrite Nat.eqb_refl.
    assert (Hq : time o - inject_Z (0 + (-1 + n_bounds m) * interval_length) <= -1).
    { assert (HN : 2 <= inject_Z (n_bounds m))
        by (change 2 with (inject_Z 2); rewrite <- Zle_Qle; lia).
      unfold interval_length. clear - Hshort HN. push_inject. lra. }
    pose proof (Qtrunc_le_m1 _ Hq). lia.
Qed.

End ExposureSums.

(** ** The regression models *)

Section Models.
Local Open Scope R_scope.

Lemma map_id_ext {A : Type} (g : A -> A) (l : list A) :
  (forall x, g x = x) -> map g l = l.
Proof.
  intros Hg. induction l as [|x l IH]; simpl; [reflexivity|].
  now rewrite Hg, IH.
Qed.

(** X11. In the proportional-hazards model the hazard row of a subject is
    the baseline hazard [lambda0] when the cancer had not metastized, and
    the baseline scaled by [exp beta], that is the draw of [met_hazard],
    when it had. *)
Theorem lambda_rows (beta : R) (df : DataFrame) (lambda0 : list R) :
  Forall2 (fun o row =>
             row = if metastized o then met_hazard_draw lambda0 beta
                   else lambda0)
          df (lambda_ beta df lambda0).
Proof.
  unfold lambda_. induction df as [|o df IH]; simpl; constructor; [|exact IH].
  unfold covariate, met_hazard_draw. destruct (metastized o); simpl.
  - apply map_ext. intros l. rewrite Rmult_1_r. apply Rmult_comm.
  - apply map_id_ext. intros l. rewrite Rmult_0_r, exp_0. apply Rmult_1_l.
Qed.

Lemma combine_repeat_map {A B : Type} (g : A * B -> A) (b : B) (h : A -> A)
    (l : list A) :
  (forall x, g (x, b) = h x) ->
  map g (combine l (repeat b (length l))) = map h l.
Proof.
  intros Hg. induction l as [|x l IH]; simpl; [reflexivity|].
  now rewrite Hg, IH.
Qed.

(** X12. The time-varying model with the same coefficient [beta] in every
    interval gives the hazards of the proportional-hazards model. *)
Theorem lambda_tv_constant (beta : R) (df : DataFrame) (lambda0 : list R) :
  lambda_tv (repeat beta (length lambda0)) df lambda0
  = lambda_ beta df lambda0.
Proof.
  unfold lambda_tv, lambda_. apply map_ext. intros o.
  apply (combine_repeat_map
           (fun p => fst p * exp (covariate (metastized o) * snd p))).
  intros l. simpl. rewrite (Rmult_comm (covariate _)). apply Rmult_comm.
Qed.

(** X13. In the time-varying model with one coefficient per interval, the
    hazard row of a subject is the baseline hazard when the cancer had not
    metastized and the draw of [tv_met_hazard] when it had. *)
Theorem lambda_tv_rows (beta : list R) (df : DataFrame) (lambda0 : list R) :
  length beta = length lambda0 ->
  Forall2 (fun o row =>
             row = if metastized o then tv_met_hazard_draw lambda0 beta
                   else lambda0)
          df (lambda_tv beta df lambda0).
Proof.
  intros Hlen. unfold lambda_tv.
  induction df as [|o df IH]; simpl; constructor; [|exact IH].
  unfold covariate, tv_met_hazard_draw. destruct (metastized o); simpl.
  - apply map_ext. intros [l b]. simpl. now rewrite Rmult_1_l.
  - clear IH. revert beta Hlen.
    induction lambda0 as [|l lambda0 IHl]; intros [|b beta] Hlen;
      simpl in *; try discriminate; [reflexivity|].
    rewrite Rmult_0_l, exp_0, Rmult_1_r. f_equal. apply IHl. lia.
Qed.

End Models.

(** ** Further properties of the curves *)

Section CurvesMore.
Local Open Scope R_scope.



(** *** The mean over draws *)

Lemma Rsum_map_plus_scal {A : Type} (g h : A -> R) (c : R) (l : list A) :
  Rsum (map (fun x => g x + c * h x) l)
  = Rsum (map g l) + c * Rsum (map h l).
Proof.
  induction l as [|x l IH]; simpl; [ring|]. rewrite IH. ring.
Qed.

Lemma cumsum_from_nth_succ (acc : R) (l : list R) (j : nat) :
  (S j < length l)%nat ->
  nth (S j) (cumsum_from acc l) 0
  = nth j (cumsum_from acc l) 0 + nth (S j) l 0.
Proof.
  revert acc j; induction l as [|x l IH]; intros acc j Hj; simpl in Hj; [lia|].
  destruct j as [|j].
  - destruct l as [|y l]; simpl in *; [lia|reflexivity].
  - change (nth (S (S j)) (cumsum_from acc (x :: l)) 0)
      with (nth (S j) (cumsum_from (acc + x) l) 0).
    change (nth (S j) (cumsum_from acc (x :: l)) 0)
      with (nth j (cumsum_from (acc + x) l) 0).
    change (nth (S (S j)) (x :: l) 0) with (nth (S j) l 0).
    apply IH. lia.
Qed.

Lemma nth_scaled (l : list R) (j : nat) :
  nth j (map (fun h => IZR interval_length * h) l) 0
  = IZR interval_length * nth j l 0.
Proof.
  rewrite <- (map_nth (fun h => IZR interval_length * h)).
  f_equal. ring.
Qed.

Lemma cum_hazard_nth_0 (row : list R) :
  (0 < length row)%nat ->
  nth 0 (cum_hazard row) 0 = IZR interval_length * nth 0 row 0.
Proof.
  destruct row as [|x row]; simpl; [lia|]. intros _. ring.
Qed.

Lemma cum_hazard_nth_succ (row : list R) (j : nat) :
  (S j < length row)%nat ->
  nth (S j) (cum_hazard row) 0
  = nth j (cum_hazard row) 0 + IZR interval_length * nth (S j) row 0.
Proof.
  intros Hj. unfold cum_hazard, cumsum.
  rewrite cumsum_from_nth_succ by now rewrite length_map.
  now rewrite nth_scaled.
Qed.

Lemma mean_axis0_length (m : list (list R)) :
  length (mean_axis0 m) = ncols m.
Proof. unfold mean_axis0. now rewrite length_map, length_seq. Qed.

Lemma mean_axis0_nth (m : list (list R)) (j : nat) :
  (j < ncols m)%nat ->
  nth j (mean_axis0 m) 0
  = Rsum (map (fun row => nth j row 0) m) / INR (length m).
Proof.
  intros Hj. unfold mean_axis0. now rewrite nth_map_seq.
Qed.

Lemma ncols_map_preserving (f : list R -> list R) (m : list (list R)) :
  (forall row, length (f row) = length row) -> ncols (map f m) = ncols m.
Proof. intros Hf. destruct m; simpl; auto. Qed.

Lemma Rsum_map_ext_in {A : Type} (g h : A -> R) (l : list A) :
  (forall x, In x l -> g x = h x) -> Rsum (map g l) = Rsum (map h l).
Proof. intros H. f_equal. now apply map_ext_in. Qed.

(** X17. For draws that form a rectangular array, the line [plot_with_hpd]
    draws for [f = cum_hazard], the cumulative hazard of the mean hazard, is
    the mean over draws of the cumulative hazard. *)
Theorem cum_hazard_of_mean (hazard : list (list R)) (n : nat) :
  Forall (fun row => length row = n) hazard ->
  cum_hazard (mean_axis0 hazard) = mean_axis0 (map cum_hazard hazard).
Proof.
  intros Hrect.
  assert (Hc : ncols (map cum_hazard hazard) = ncols hazard)
    by (apply ncols_map_preserving, cum_hazard_length).
  assert (Hn : forall row, In row hazard -> length row = ncols hazard).
  { destruct hazard as [|r0 rest]; [intros row []|].
    inversion Hrect; subst. simpl. rewrite Forall_forall in Hrect.
    intros row Hrow. now apply Hrect. }
  apply (nth_ext _ _ 0 0).
  - now rewrite cum_hazard_length, !mean_axis0_length.
  - rewrite cum_hazard_length, mean_axis0_length. intros j Hj.
    induction j as [|j IH].
    + rewrite cum_hazard_nth_0 by (rewrite mean_axis0_length; lia).
      rewrite !mean_axis0_nth by lia.
      rewrite length_map, map_map.
      rewrite (Rsum_map_ext_in (fun row => nth 0 (cum_hazard row) 0)
                 (fun row => 0 + IZR interval_length * nth 0 row 0)).
      * rewrite Rsum_map_plus_scal.
        replace (Rsum (map (fun _ => 0) hazard)) with 0; [unfold Rdiv; ring|].
        clear. induction hazard; simpl; [reflexivity|]. lra.
      * intros row Hrow. rewrite cum_hazard_nth_0 by (rewrite (Hn row Hrow); lia).
        ring.
    + rewrite cum_hazard_nth_succ by (rewrite mean_axis0_length; lia).
      rewrite IH by lia.
      rewrite !mean_axis0_nth by lia.
      rewrite !length_map, !map_map.
      rewrite (Rsum_map_ext_in
                 (fun row => nth (S j) (cum_hazard row) 0)
                 (fun row => nth j (cum_hazard row) 0
                             + IZR interval_length * nth (S j) row 0)).
      * rewrite Rsum_map_plus_scal. unfold Rdiv. ring.
      * intros row Hrow. apply cum_hazard_nth_succ. rewrite (Hn row Hrow). lia.
Qed.

End CurvesMore.

(** ** Further properties of the percentile bands *)

Section BandsMore.
Local Open Scope R_scope.

Lemma insert_sorted_In (x z : R) (l : list R) :
  In z (insert_sorted x l) <-> z = x \/ In z l.
Proof.
  induction l as [|y l IH]; simpl.
  - intuition.
  - destruct (Rle_dec x y); simpl; [intuition|].
    rewrite IH. intuition.
Qed.

Lemma sort_In (z : R) (l : list R) : In z (sort l) <-> In z l.
Proof.
  induction l as [|x l IH]; simpl; [reflexivity|].
  rewrite insert_sorted_In, IH. intuition.
Qed.

(** A percentile is a weighted mean of two entries of the sample. *)
Lemma percentile_between (a : list R) (q : R) :
  a <> [] -> 0 <= q <= 100 ->
  exists v x y w,
    percentile a q = Some v /\ In x a /\ In y a /\ 0 <= w < 1
    /\ v = x * (1 - w) + y * w.
Proof.
  intros Ha Hq. rewrite percentile_some by assumption.
  assert (Hs : sort a <> []).
  { intros Hs. apply (f_equal (@length R)) in Hs.
    rewrite sort_length in Hs. destruct a; [congruence|discriminate]. }
  assert (Hlen : (0 < length (sort a))%nat)
    by (destruct (sort a); simpl; [congruence|lia]).
  destruct (interpolate_unfold (sort a) q Hs Hq) as [b [Hb [Hi Hv]]].
  exists (interpolate (sort a) q), (nth b (sort a) 0),
    (nth (Nat.min (S b) (length (sort a) - 1)) (sort a) 0),
    (q / 100 * INR (length (sort a) - 1) - INR b).
  split; [reflexivity|].
  split; [apply sort_In, nth_In; lia|].
  split; [apply sort_In, nth_In; lia|].
  split; [lra|exact Hv].
Qed.

(** A property closed under weighted means passes from the columns of an
    array to its percentiles. *)
Lemma percentile_axis0_Forall (P : R -> Prop) (m : list (list R)) (q : R) :
  m <> [] -> 0 <= q <= 100 ->
  (forall j x, (j < ncols m)%nat -> In x (column j m) -> P x) ->
  (forall x y w, P x -> P y -> 0 <= w < 1 -> P (x * (1 - w) + y * w)) ->
  exists vs,
    percentile_axis0 m q = Some vs /\ length vs = ncols m /\ Forall P vs.
Proof.
  intros Hm Hq Hcol Hconv. unfold percentile_axis0.
  assert (Hjs : Forall (fun j => (j < ncols m)%nat) (seq 0 (ncols m))).
  { apply Forall_forall. intros j Hj. apply in_seq in Hj. lia. }
  assert (Hgen : forall js, Forall (fun j => (j < ncols m)%nat) js ->
            exists vs,
              all_some (map (fun j => percentile (column j m) q) js) = Some vs
              /\ length vs = length js /\ Forall P vs).
  { intros js Hall. induction Hall as [|j js Hj _ IH]; simpl.
    - exists []. repeat split. constructor.
    - destruct (percentile_between (column j m) q (column_nonempty j m Hm) Hq)
        as [v [x [y [w [-> [Hx [Hy [Hw ->]]]]]]]].
      destruct IH as [vs [-> [Hlen HP]]].
      eexists. split; [reflexivity|]. split; [simpl; now rewrite Hlen|].
      constructor; [|exact HP].
      apply Hconv; eauto. }
  destruct (Hgen _ Hjs) as [vs [Hvs [Hlen HP]]].
  rewrite length_seq in Hlen. eauto.
Qed.

(** X18. The band stays within the range of what it summarises: for at
    least one draw, [alpha] in [0, 2] and values of [f] over the draws that
    form a rectangular array with every entry between [L] and [U], both
    edges of the band drawn by [plot_with_hpd] have one entry per interval,
    each between [L] and [U]. *)
Theorem hpd_band_within_bounds
    (hazard : list (list R)) (f : list R -> list R) (n : nat)
    (alpha L U : R) :
  hazard <> [] ->
  Forall (fun row => length (f row) = n
                     /\ Forall (fun v => L <= v <= U) (f row)) hazard ->
  0 <= alpha <= 2 ->
  exists p,
    plot_with_hpd hazard f alpha = Some p
    /\ length (hpd_lower p) = n /\ length (hpd_upper p) = n
    /\ Forall (fun v => L <= v <= U) (hpd_lower p)
    /\ Forall (fun v => L <= v <= U) (hpd_upper p).
Proof.
  intros Hne Hrows Ha. unfold plot_with_hpd.
  assert (Hfh : map f hazard <> [])
    by (destruct hazard; [congruence|discriminate]).
  assert (Hn : ncols (map f hazard) = n).
  { destruct hazard as [|r0 rest]; [congruence|]. simpl.
    inversion Hrows as [|? ? [Hlen _] _]; subst. reflexivity. }
  assert (Hcol : forall j x, (j < ncols (map f hazard))%nat ->
            In x (column j (map f hazard)) -> L <= x <= U).
  { intros j x Hj Hx. rewrite Hn in Hj. unfold column in Hx.
    rewrite map_map in Hx. apply in_map_iff in Hx as [row [<- Hrow]].
    rewrite Forall_forall in Hrows. destruct (Hrows row Hrow) as [Hlen Hin].
    rewrite Forall_forall in Hin. apply Hin, nth_In. lia. }
  assert (Hconv : forall x y w, L <= x <= U -> L <= y <= U -> 0 <= w < 1 ->
            L <= x * (1 - w) + y * w <= U) by (intros; nra).
  destruct (percentile_axis0_Forall (fun v => L <= v <= U) _
              (100 * (alpha / 2)) Hfh) as [lo [-> [Hllo Hlo]]];
    [lra|exact Hcol|exact Hconv|].
  destruct (percentile_axis0_Forall (fun v => L <= v <= U) _
              (100 * (1 - alpha / 2)) Hfh) as [hi [-> [Hlhi Hhi]]];
    [lra|exact Hcol|exact Hconv|].
  eexists. split; [reflexivity|]. simpl.
  split; [congruence|]. split; [congruence|]. split; assumption.
Qed.

Lemma all_some_map_Some {A B : Type} (g : A -> B) (l : list A) :
  all_some (map (fun x => Some (g x)) l) = Some (map g l).
Proof.
  induction l as [|x l IH]; simpl; [reflexivity|]. now rewrite IH.
Qed.

Lemma map_nth_seq (l : list R) :
  map (fun j => nth j l 0) (seq 0 (length l)) = l.
Proof.
  apply (nth_ext _ _ 0 0).
  - now rewrite length_map, length_seq.
  - rewrite length_map, length_seq. intros j Hj. now rewrite nth_map_seq.
Qed.

Lemma percentile_singleton (x q : R) :
  0 <= q <= 100 -> percentile [x] q = Some x.
Proof.
  intros Hq. rewrite percentile_some by (congruence || assumption).
  f_equal. unfold interpolate. simpl.
  rewrite Rmult_0_r.
  replace (Int_part 0) with 0%Z by (apply Int_part_spec; lra).
  simpl. ring.
Qed.

(** X19. With a single posterior draw [h] and [alpha] in [0, 2], both edges
    of the band and the mean line coincide with [f h]. *)
Theorem plot_with_hpd_single_draw
    (h : list R) (f : list R -> list R) (alpha : R) :
  0 <= alpha <= 2 ->
  plot_with_hpd [h] f alpha = Some (mkPlot (f h) (f h) (f h)).
Proof.
  intros Ha. unfold plot_with_hpd, percentile_axis0.
  change (map f [h]) with [f h]. change (ncols [f h]) with (length (f h)).
  assert (Hp : forall q, 0 <= q <= 100 ->
            all_some (map (fun j => percentile (column j [f h]) q)
                          (seq 0 (length (f h))))
            = Some (f h)).
  { intros q Hq.
    rewrite (map_ext _ (fun j => Some (nth j (f h) 0))).
    - now rewrite all_some_map_Some, map_nth_seq.
    - intros j. unfold column. simpl. now apply percentile_singleton. }
  rewrite !Hp by lra.
  f_equal. f_equal. f_equal.
  unfold mean_axis0. change (ncols [h]) with (length h).
  rewrite (map_ext _ (fun j => nth j h 0)); [apply map_nth_seq|].
  intros j. unfold column. simpl. field.
Qed.

Lemma percentile_out_of_range (a : list R) (q : R) :
  q < 0 \/ 100 < q -> percentile a q = None.
Proof.
  intros Hq. unfold percentile. destruct a; [reflexivity|].
  destruct (Rle_dec 0 q); [|reflexivity].
  destruct (Rle_dec q 100); [lra|reflexivity].
Qed.

Lemma percentile_axis0_out_of_range (m : list (list R)) (q : R) :
  (0 < ncols m)%nat -> q < 0 \/ 100 < q -> percentile_axis0 m q = None.
Proof.
  intros Hc Hq. unfold percentile_axis0.
  destruct (ncols m) as [|k]; [lia|].
  cbn [seq map]. rewrite percentile_out_of_range by assumption. reflexivity.
Qed.

(** X20. With at least one draw and at least one interval, [plot_with_hpd]
    produces a plot exactly when [alpha] is in [0, 2]; for any other
    [alpha] the percentiles [100 * alpha / 2] and [100 * (1 - alpha / 2)]
    leave [0, 100] and [np.percentile] raises. *)
Theorem plot_with_hpd_alpha_range
    (hazard : list (list R)) (f : list R -> list R) (alpha : R) :
  hazard <> [] -> (0 < ncols (map f hazard))%nat ->
  ((exists p, plot_with_hpd hazard f alpha = Some p) <-> 0 <= alpha <= 2).
Proof.
  intros Hne Hcols.
  assert (Hfh : map f hazard <> [])
    by (destruct hazard; [congruence|discriminate]).
  split.
  - intros [p Hp].
    destruct (Rle_dec 0 alpha) as [H0|H0];
      [destruct (Rle_dec alpha 2) as [H2|H2]; [lra|]|]; exfalso;
      unfold plot_with_hpd in Hp;
      rewrite percentile_axis0_out_of_range in Hp by (assumption || lra);
      discriminate Hp.
  - intros Ha. unfold plot_with_hpd.
    destruct (percentile_axis0_Forall (fun _ => True) (map f hazard)
                (100 * (alpha / 2)) Hfh) as [lo [-> _]]; [lra|auto|auto|].
    destruct (percentile_axis0_Forall (fun _ => True) (map f hazard)
                (100 * (1 - alpha / 2)) Hfh) as [hi [-> _]]; [lra|auto|auto|].
    eauto.
Qed.

End BandsMore.

(** ** The order of the draws *)

Section DrawOrder.
Local Open Scope R_scope.

Lemma insert_sorted_comm (x y : R) (l : list R) :
  insert_sorted x (insert_sorted y l) = insert_sorted y (insert_sorted x l).
Proof.
  induction l as [|z l IH]; simpl.
  - destruct (Rle_dec x y), (Rle_dec y x); try reflexivity.
    + assert (x = y) by lra. now subst.
    + lra.
  - destruct (Rle_dec y z) as [Hyz|Hyz], (Rle_dec x z) as [Hxz|Hxz]; simpl.
    + destruct (Rle_dec x y), (Rle_dec y x); simpl;
        try (destruct (Rle_dec x z)); try (destruct (Rle_dec y z));
        try reflexivity; try lra.
      assert (x = y) by lra. now subst.
    + destruct (Rle_dec x y); [lra|].
      destruct (Rle_dec x z); [lra|].
      destruct (Rle_dec y z); [reflexivity|lra].
    + destruct (Rle_dec y x); [lra|].
      destruct (Rle_dec x z); [|lra].
      destruct (Rle_dec y z); [lra|reflexivity].
    + destruct (Rle_dec x z); [lra|].
      destruct (Rle_dec y z); [lra|].
      now rewrite IH.
Qed.

(** Sorting does not depend on the order of the sample. *)
Lemma sort_Permutation (a b : list R) : Permutation a b -> sort a = sort b.
Proof.
  induction 1 as [|x a b _ IH|x y a|a b c _ IH1 _ IH2]; simpl.
  - reflexivity.
  - now rewrite IH.
  - apply insert_sorted_comm.
  - congruence.
Qed.

Lemma percentile_Permutation (a b : list R) (q : R) :
  Permutation a b -> percentile a q = percentile b q.
Proof.
  intros Hab. unfold percentile.
  destruct a as [|x a], b as [|y b].
  - reflexivity.
  - apply Permutation_nil in Hab. discriminate.
  - apply Permutation_sym, Permutation_nil in Hab. discriminate.
  - now rewrite (sort_Permutation _ _ Hab).
Qed.

Lemma Rsum_Permutation (a b : list R) : Permutation a b -> Rsum a = Rsum b.
Proof.
  induction 1 as [|x a b _ IH|x y a|a b c _ IH1 _ IH2]; simpl.
  - reflexivity.
  - now rewrite IH.
  - ring.
  - congruence.
Qed.

Lemma ncols_Permutation (m1 m2 : list (list R)) (n : nat) :
  Permutation m1 m2 -> Forall (fun row => length row = n) m1 ->
  ncols m1 = ncols m2.
Proof.
  intros Hp Hrect.
  assert (Hrect2 : Forall (fun row => length row = n) m2).
  { rewrite Forall_forall in *. intros row Hrow.
    apply Hrect. eapply Permutation_in; [apply Permutation_sym|]; eauto. }
  destruct m1 as [|r1 m1], m2 as [|r2 m2]; simpl.
  - reflexivity.
  - apply Permutation_nil in Hp. discriminate.
  - apply Permutation_sym, Permutation_nil in Hp. discriminate.
  - inversion Hrect; inversion Hrect2; subst. congruence.
Qed.

Lemma percentile_axis0_Permutation (m1 m2 : list (list R)) (n : nat) (q : R) :
  Permutation m1 m2 -> Forall (fun row => length row = n) m1 ->
  percentile_axis0 m1 q = percentile_axis0 m2 q.
Proof.
  intros Hp Hrect. unfold percentile_axis0.
  rewrite (ncols_Permutation m1 m2 n Hp Hrect).
  f_equal. apply map_ext. intros j.
  apply percentile_Permutation. unfold column. now apply Permutation_map.
Qed.

(** X21. The plot does not depend on the order of the draws: for draws that
    form a rectangular array and an [f] that keeps the length of a draw (as
    [cum_hazard] and [survival] do), permuting the draws leaves the band and
    the mean line unchanged. *)
Theorem plot_with_hpd_Permutation
    (h1 h2 : list (list R)) (f : list R -> list R) (n : nat) (alpha : R) :
  Permutation h1 h2 ->
  Forall (fun row => length row = n) h1 ->
  (forall row, length (f row) = length row) ->
  plot_with_hpd h1 f alpha = plot_with_hpd h2 f alpha.
Proof.
  intros Hp Hrect Hf. unfold plot_with_hpd.
  assert (Hpf : Permutation (map f h1) (map f h2)) by now apply Permutation_map.
  assert (Hrf : Forall (fun row => length row = n) (map f h1)).
  { apply Forall_map. eapply Forall_impl; [|exact Hrect]. simpl.
    intros row Hrow. now rewrite Hf. }
  rewrite !(percentile_axis0_Permutation _ _ n _ Hpf Hrf).
  assert (Hmean : mean_axis0 h1 = mean_axis0 h2).
  { unfold mean_axis0.
    rewrite (ncols_Permutation h1 h2 n Hp Hrect), (Permutation_length Hp).
    apply map_ext. intros j. f_equal.
    apply Rsum_Permutation. unfold column. now apply Permutation_map. }
  now rewrite Hmean.
Qed.

Lemma percentile_axis0_ordered (m : list (list R)) (q1 q2 : R) :
  m <> [] -> 0 <= q1 -> q1 <= q2 -> q2 <= 100 ->
  exists lo hi,
    percentile_axis0 m q1 = Some lo /\ percentile_axis0 m q2 = Some hi
    /\ length lo = ncols m /\ Forall2 Rle lo hi.
Proof.
  intros Hm H0 H12 H100. unfold percentile_axis0.
  assert (Hgen : forall js, exists lo hi,
            all_some (map (fun j => percentile (column j m) q1) js) = Some lo
            /\ all_some (map (fun j => percentile (column j m) q2) js) = Some hi
            /\ length lo = length js /\ Forall2 Rle lo hi).
  { induction js as [|j js [lo [hi [Hlo [Hhi [Hlen Hle]]]]]]; simpl.
    - exists [], []. repeat split; constructor.
    - destruct (percentile_monotone (column j m) q1 q2
                  (column_nonempty j m Hm) H0 H12 H100)
        as [v1 [v2 [-> [-> Hv]]]].
      rewrite Hlo, Hhi. exists (v1 :: lo), (v2 :: hi).
      repeat split; [simpl; now rewrite Hlen|constructor; assumption]. }
  destruct (Hgen (seq 0 (ncols m))) as [lo [hi [Hlo [Hhi [Hlen Hle]]]]].
  rewrite length_seq in Hlen. eauto 6.
Qed.

(** X22. For at least one draw of the time-varying coefficients, the band
    of the coefficient plot is built and its lower edge [beta_low] (the
    2.5th percentile) is, interval by interval, at most its upper edge
    [beta_high] (the 97.5th percentile). *)
Theorem beta_hpd_ordered (beta_trace : list (list R)) :
  beta_trace <> [] ->
  exists beta_low beta_high,
    beta_hpd beta_trace = Some (beta_low, beta_high)
    /\ length beta_low = ncols beta_trace
    /\ length beta_low = length (beta_hat beta_trace)
    /\ Forall2 Rle beta_low beta_high.
Proof.
  intros Hne. unfold beta_hpd.
  destruct (percentile_axis0_ordered beta_trace (25 / 10) (975 / 10) Hne)
    as [lo [hi [-> [-> [Hlen Hle]]]]]; [lra|lra|lra|].
  exists lo, hi. split; [reflexivity|]. split; [exact Hlen|].
  split; [|exact Hle].
  unfold beta_hat. now rewrite mean_axis0_length.
Qed.

End DrawOrder.

(** ** The number of intervals *)

Section IntervalCount.
Local Open Scope Q_scope.

(** X23. When the largest observed time is a positive whole number [M] of
    months, there are [n = M / 3 + 1] intervals (integer division rounding
    down), and [M] lies in the last one, [3 (n - 1) <= M < 3 n]. *)
Theorem n_intervals_whole_months (df : DataFrame) (M : Z) :
  series_max (map time df) = Some (inject_Z M) -> (0 < M)%Z ->
  n_intervals df = Some (M / interval_length + 1)%Z
  /\ (interval_length * (M / interval_length) <= M
      < interval_length * (M / interval_length + 1))%Z.
Proof.
  intros Hm HM.
  assert (Hm0 : 0 < inject_Z M).
  { change 0 with (inject_Z 0). rewrite <- Zlt_Qlt. exact HM. }
  rewrite (n_intervals_eq df _ Hm Hm0).
  destruct (n_bounds_spec (inject_Z M)) as [Hlo Hhi].
  set (N := n_bounds (inject_Z M)) in *. clearbody N.
  assert (H1 : (M + 4 <= 3 * N)%Z) by (zify_Q; lra).
  assert (H2 : (3 * N < M + 7)%Z) by (zify_Q; lra).
  pose proof (Z.div_mod M interval_length) as Hdiv.
  pose proof (Z.mod_pos_bound M interval_length) as Hrem.
  unfold interval_length in *.
  assert (HN : (N - 1 = M / 3 + 1)%Z) by lia.
  rewrite HN. split; [reflexivity|]. lia.
Qed.

End IntervalCount.

(** ** The further properties on concrete data *)

Section MoreExamples.

Lemma death_entries_whole_months_example :
  exists D bs,
    death df_head = Some D
    /\ interval_bounds df_head = Some bs
    /\ Forall2 (fun o row =>
                  forall j, (S j < length bs)%nat ->
                    (nth j row 0%Z = 0%Z \/ nth j row 0%Z = 1%Z)
                    /\ (nth j row 0%Z = 1%Z <->
                        event o = true
                        /\ (inject_Z (nth j bs 0%Z) < time o
                            <= inject_Z (nth (S j) bs 0%Z))%Q))
               df_head D.
Proof.
  apply (death_entries_whole_months df_head); [discriminate|].
  repeat (constructor; [eexists; split; reflexivity|]). constructor.
Defined.

Lemma death_total_events_example :
  exists D,
    death df_head = Some D
    /\ Forall2 (fun o row => row_sum row = Z.b2z (event o)) df_head D
    /\ row_sum (map row_sum D)
       = row_sum (map (fun o => Z.b2z (event o)) df_head).
Proof.
  apply (death_total_events df_head); [discriminate | repeat constructor].
Defined.

Lemma death_exposure_same_shape_example :
  exists D E n,
    death df_head = Some D /\ exposure df_head = Some E
    /\ n_intervals df_head = Some n
    /\ (1 <= n)%Z
    /\ length D = n_patients df_head /\ length E = n_patients df_head
    /\ Forall (fun row => Z.of_nat (length row) = n) D
    /\ Forall (fun row => Z.of_nat (length row) = n) E.
Proof.
  apply (death_exposure_same_shape df_head);
    [discriminate | repeat constructor].
Defined.

Lemma exposure_bounded_example :
  exists E,
    exposure df_head = Some E
    /\ Forall (Forall (fun x => (0 <= x <= interval_length)%Z)) E.
Proof.
  apply (exposure_bounded df_head);
    [discriminate | repeat constructor; discriminate].
Defined.

Lemma exposure_row_layout_example :
  exists E n,
    exposure df_head = Some E /\ n_intervals df_head = Some n
    /\ Forall2 (fun o row =>
                  forall j, (Z.of_nat j < n)%Z ->
                    ((Z.of_nat j < last_period_of (time o))%Z ->
                       nth j row 0%Z = interval_length)
                    /\ (Z.of_nat j = last_period_of (time o) ->
                          nth j row 0%Z
                          = Qfloor (time o - inject_Z (interval_length
                                                 * last_period_of (time o))))
                    /\ ((last_period_of (time o) + 1 < Z.of_nat j)%Z ->
                          nth j row 0%Z = 0%Z))
               df_head E.
Proof.
  apply (exposure_row_layout df_head);
    [discriminate | repeat constructor; discriminate].
Defined.

Lemma exposure_row_sum_exact_multiple_example :
  exists E row,
    exposure df_head = Some E
    /\ nth_error E 2 = Some row
    /\ row_sum row = (69 + interval_length)%Z.
Proof.
  apply (exposure_row_sum_exact_multiple df_head 2 (obs 69 true false) 69);
    [repeat constructor | reflexivity | reflexivity | reflexivity
    | reflexivity].
Defined.

Lemma exposure_row_sum_rounds_down_example :
  exists E row,
    exposure [obs (9 # 2) true false] = Some E
    /\ nth_error E 0 = Some row
    /\ row_sum row = Qfloor (time (obs (9 # 2) true false)).
Proof.
  apply (exposure_row_sum_rounds_down
           [obs (9 # 2) true false] 0 (obs (9 # 2) true false));
    [repeat constructor | reflexivity | discriminate | reflexivity].
Defined.

Lemma death_where_exposure_positive_example :
  exists D E drow erow,
    death df_head = Some D /\ exposure df_head = Some E
    /\ nth_error D 0 = Some drow /\ nth_error E 0 = Some erow
    /\ nth (Z.to_nat ((23 - 1) / interval_length)) erow 0%Z
       = (23 - interval_length * ((23 - 1) / interval_length))%Z
    /\ forall j, nth j drow 0%Z = 1%Z ->
         (1 <= nth j erow 0 <= interval_length)%Z.
Proof.
  apply (death_where_exposure_positive df_head 0 (obs 23 true false) 23);
    [repeat constructor | reflexivity | reflexivity | reflexivity].
Defined.

Lemma short_time_wraps_to_last_interval_example :
  exists D E n drow erow,
    last_period_of (time (obs (1 # 200) true false)) = (-1)%Z
    /\ death df_short = Some D /\ exposure df_short = Some E
    /\ n_intervals df_short = Some n
    /\ nth_error D 0 = Some drow /\ nth_error E 0 = Some erow
    /\ nth (Z.to_nat (n - 1)) drow 0%Z = Z.b2z (event (obs (1 # 200) true false))
    /\ (nth (Z.to_nat (n - 1)) erow 0 < 0)%Z.
Proof.
  apply (short_time_wraps_to_last_interval
           df_short 0 (obs (1 # 200) true false));
    [repeat constructor | reflexivity | reflexivity].
Defined.

Lemma n_intervals_whole_months_example :
  n_intervals df_head = Some (100 / interval_length + 1)%Z
  /\ (interval_length * (100 / interval_length) <= 100
      < interval_length * (100 / interval_length + 1))%Z.
Proof.
  apply (n_intervals_whole_months df_head 100); reflexivity.
Defined.

Local Open Scope R_scope.

Lemma lambda_tv_rows_example :
  Forall2 (fun o row =>
             row = if metastized o then tv_met_hazard_draw [3; 4] [1; 2]
                   else [3; 4])
          df_head (lambda_tv [1; 2] df_head [3; 4]).
Proof.
  apply (lambda_tv_rows [1; 2] df_head [3; 4]). reflexivity.
Defined.

Lemma cum_hazard_of_mean_example :
  cum_hazard (mean_axis0 [[1; 2]; [3; 4]])
  = mean_axis0 (map cum_hazard [[1; 2]; [3; 4]]).
Proof.
  apply (cum_hazard_of_mean [[1; 2]; [3; 4]] 2). repeat constructor.
Defined.

Lemma hpd_band_within_bounds_example :
  exists p,
    plot_with_hpd [[1; 2]; [3; 4]] cum_hazard (1 / 2) = Some p
    /\ length (hpd_lower p) = 2%nat /\ length (hpd_upper p) = 2%nat
    /\ Forall (fun v => 0 <= v <= 100) (hpd_lower p)
    /\ Forall (fun v => 0 <= v <= 100) (hpd_upper p).
Proof.
  apply (hpd_band_within_bounds [[1; 2]; [3; 4]] cum_hazard 2 (1 / 2) 0 100);
    [discriminate | | lra].
  unfold cum_hazard, cumsum, interval_length.
  repeat constructor; simpl; lra.
Defined.

Lemma plot_with_hpd_single_draw_example :
  plot_with_hpd [[1; 2]] cum_hazard (5 / 100)
  = Some (mkPlot (cum_hazard [1; 2]) (cum_hazard [1; 2]) (cum_hazard [1; 2])).
Proof.
  apply (plot_with_hpd_single_draw [1; 2] cum_hazard (5 / 100)). lra.
Defined.

Lemma plot_with_hpd_alpha_range_example :
  (exists p, plot_with_hpd skewed_draws cum_hazard 3 = Some p) <-> 0 <= 3 <= 2.
Proof.
  apply (plot_with_hpd_alpha_range skewed_draws cum_hazard 3);
    [discriminate | simpl; lia].
Defined.

Lemma plot_with_hpd_Permutation_example :
  plot_with_hpd [[1]; [2]] cum_hazard (5 / 100)
  = plot_with_hpd [[2]; [1]] cum_hazard (5 / 100).
Proof.
  apply (plot_with_hpd_Permutation [[1]; [2]] [[2]; [1]] cum_hazard 1 (5 / 100));
    [apply perm_swap | repeat constructor | exact cum_hazard_length].
Defined.

Lemma beta_hpd_ordered_example :
  exists beta_low beta_high,
    beta_hpd [[1; 2]; [3; 4]] = Some (beta_low, beta_high)
    /\ length beta_low = ncols [[1; 2]; [3; 4]]
    /\ length beta_low = length (beta_hat [[1; 2]; [3; 4]])
    /\ Forall2 Rle beta_low beta_high.
Proof.
  apply (beta_hpd_ordered [[1; 2]; [3; 4]]). discriminate.
Defined.

(** A death can be recorded where no exposure is: a death after 3.5 months
    is stored in interval 1, whose exposure 0.5 is kept as 0 in the integer
    exposure array. *)
Lemma death_without_exposure :
  death [obs (7 # 2) true false] = Some [[0; 1]]%Z
  /\ exposure [obs (7 # 2) true false] = Some [[3; 0]]%Z.
Proof. split; reflexivity. Qed.

End MoreExamples.

(** ** The survival curve in float64 range *)

Section SurvivalRange.
Local Open Scope R_scope.

Lemma pow2_pos (n : nat) : 0 < 2 ^ n.
Proof. apply pow_lt. lra. Qed.

Lemma pow2_ge_1 (n : nat) : 1 <= 2 ^ n.
Proof. apply pow_R1_Rle. lra. Qed.

Lemma overflow_threshold_gt_1 : 1 < 2 ^ 1024 - 2 ^ 970.
Proof.
  replace 1024%nat with (970 + 54)%nat by reflexivity.
  rewrite pow_add.
  pose proof (pow2_ge_1 970) as H1.
  assert (H2 : 4 <= 2 ^ 54).
  { replace 54%nat with (2 + 52)%nat by reflexivity. rewrite pow_add.
    pose proof (pow2_ge_1 52). simpl (2 ^ 2). nra. }
  nra.
Qed.



Lemma exp_le (x y : R) : x <= y -> exp x <= exp y.
Proof. intros [H| ->]; [left; now apply exp_increasing|lra]. Qed.


Lemma exp_neg_le_1 (c : R) : 0 <= c -> exp (- c) <= 1.
Proof. intros Hc. rewrite <- exp_0. apply exp_le. lra. Qed.




End SurvivalRange.

Section SurvivalRangeExamples.
Local Open Scope R_scope.



(** Strictly positive hazards need not give a strictly decreasing curve:
    with the hazard 1e-20 in two intervals both exponentials are absorbed
    into 1.0. *)
Lemma survival_f64_absorbs :
  survival_f64 [/ 10 ^ 20; / 10 ^ 20] = [Fin 1; Fin 1].
Proof.
  assert (Hgen : forall c, 0 < c -> c <= 6 * / 10 ^ 20 -> np_exp (- c) = Fin 1).
  { intros c Hc0 Hc. unfold np_exp.
    pose proof (exp_neg_le_1 c (Rlt_le _ _ Hc0)) as H1.
    assert (Hlo : 1 - c < exp (- c)).
    { pose proof (exp_ineq1 (- c)) as H. lra. }
    pose proof overflow_threshold_gt_1 as Hov.
    assert (H54 : / 10 ^ 20 * 6 <= / 2 ^ 54).
    { assert (H2 : 2 ^ 54 * 6 <= 10 ^ 20) by lra.
      pose proof (pow2_pos 54). assert (0 < 10 ^ 20) by (apply pow_lt; lra).
      apply (Rmult_le_reg_r (10 ^ 20 * 2 ^ 54)); [nra|].
      field_simplify; nra. }
    assert (H53 : 0 < / 2 ^ 53) by (apply Rinv_0_lt_compat, pow2_pos).
    assert (H1075 : / 2 ^ 1075 < 1 - / 2 ^ 54).
    { assert (/ 2 ^ 1075 <= / 2 ^ 1).
      { apply Rinv_le_contravar; [lra|]. apply Rle_pow; [lra|lia]. }
      assert (/ 2 ^ 54 <= / 2 ^ 2).
      { apply Rinv_le_contravar; [lra|]. apply Rle_pow; [lra|lia]. }
      lra. }
    destruct (Rle_dec (2 ^ 1024 - 2 ^ 970) (exp (- c))); [lra|].
    destruct (Rle_dec (exp (- c)) (/ 2 ^ 1075)); [lra|].
    destruct (Rle_dec (1 - / 2 ^ 54) (exp (- c))); [|lra].
    destruct (Rle_dec (exp (- c)) (1 + / 2 ^ 53)); [reflexivity|lra]. }
  assert (H10 : 0 < / 10 ^ 20) by (apply Rinv_0_lt_compat, pow_lt; lra).
  unfold survival_f64, cum_hazard, cumsum, interval_length. simpl map.
  simpl cumsum_from. cbn [map].
  rewrite !Hgen by lra. reflexivity.
Qed.

End SurvivalRangeExamples.
